(** * The API gateway of RESTful_APIs: service registry, health prober, proxy

    A shallow embedding of [src/api-gateway/gateway.js] (class [APIGateway]).
    The gateway keeps a [Map] from service keys to descriptor objects, mounts
    one proxy per service, answers [/health], [/services] and [/] from the
    registry, and probes every service's health address at start-up and on a
    30 s timer.

    Conventions of the embedding:
    - JavaScript strings are [string]; [null]/[undefined] is [None].
    - [new Date().toISOString()] is represented by the clock value (in ms)
      it renders; [Date.now()] is the same clock.
    - Descriptor objects live in a heap and the registry [Map] holds
      references to them, because the proxy callbacks and the prober close
      over the object, not over the key.
    - The third-party middleware in front of the routes (helmet, cors, body
      parsers, express-rate-limit, the logger) is not part of the embedding:
      a [Request] is a request that those layers handed on with [next()],
      and it records whether a body parser has read its body. *)

From stdpp Require Import base option list sets strings pretty.
From Stdlib Require Import Ascii ZArith Lia.

Local Open Scope string_scope.
Local Open Scope Z_scope.
Local Open Scope list_scope.

(** ** JavaScript containers *)

(** A plain object used as a dictionary, in property insertion order.
    [prop_set k v o] is the assignment [o[k] = v]. *)
Definition obj (A : Type) : Type := list (string * A).

Fixpoint prop_set {A} (k : string) (v : A) (o : obj A) : obj A :=
  match o with
  | [] => [(k, v)]
  | (k', v') :: o' =>
      if String.eqb k k' then (k, v) :: o' else (k', v') :: prop_set k v o'
  end.

Fixpoint prop_get {A} (k : string) (o : obj A) : option A :=
  match o with
  | [] => None
  | (k', v) :: o' => if String.eqb k k' then Some v else prop_get k o'
  end.

Definition Object_keys {A} (o : obj A) : list string := o.*1.

(** A [Map] with string keys, in insertion order. *)
Module JsMap.
Definition t (A : Type) : Type := list (string * A).
Definition empty {A} : t A := [].
Definition set {A} (k : string) (v : A) (m : t A) : t A := prop_set k v m.
Definition get {A} (k : string) (m : t A) : option A := prop_get k m.
Definition keys {A} (m : t A) : list string := m.*1.
Definition values {A} (m : t A) : list A := m.*2.
Definition entries {A} (m : t A) : list (string * A) := m.
Definition size {A} (m : t A) : nat := length m.
End JsMap.

(** ** Data model *)

(** A service descriptor object, with the fields [registerServices] gives it. *)
Record ServiceDescriptor := {
  name : string;
  url : string;
  health : string;
  routes : list string;
  status : string;
  lastHealthCheck : option Z;
  responseTime : option string
}.

Definition set_status (v : string) (s : ServiceDescriptor) : ServiceDescriptor :=
  {| name := name s; url := url s; health := health s; routes := routes s;
     status := v; lastHealthCheck := lastHealthCheck s;
     responseTime := responseTime s |}.

Definition set_lastHealthCheck (v : option Z) (s : ServiceDescriptor)
  : ServiceDescriptor :=
  {| name := name s; url := url s; health := health s; routes := routes s;
     status := status s; lastHealthCheck := v;
     responseTime := responseTime s |}.

Definition set_responseTime (v : option string) (s : ServiceDescriptor)
  : ServiceDescriptor :=
  {| name := name s; url := url s; health := health s; routes := routes s;
     status := status s; lastHealthCheck := lastHealthCheck s;
     responseTime := v |}.

(** What reading through a dangling reference yields in the embedding; no
    reference of a running gateway dangles (see [world_ok]). *)
#[global] Instance ServiceDescriptor_inhabited : Inhabited ServiceDescriptor :=
  populate {| name := ""; url := ""; health := ""; routes := [];
              status := ""; lastHealthCheck := None; responseTime := None |}.

(** The heap of descriptor objects; a reference is an index into it. *)
Abbreviation ref := nat (only parsing).
Abbreviation heap := (list ServiceDescriptor) (only parsing).

Definition deref (h : heap) (r : ref) : ServiceDescriptor := h !!! r.

(** [service.f = v] for the object behind [r]. *)
Definition assign (r : ref) (f : ServiceDescriptor -> ServiceDescriptor)
    (h : heap) : heap :=
  alter f r h.

(** [new] object: allocated at the end of the heap. *)
Definition alloc (d : ServiceDescriptor) (h : heap) : heap * ref :=
  (h ++ [d], length h).

(** Requests as the route handlers see them. [body] is what the caller
    sent as the request's body; [body_parsed] tells whether [express.json()]
    or [express.urlencoded()], which sit in front of every route and mount,
    has read it off the request stream (body-parser's [req._body]; it does
    so for a JSON or urlencoded body). [requestId] and [gateway] are the
    two properties the service-discovery middleware adds. *)
Record GatewayTag := {
  tag_timestamp : Z;
  tag_version : string;
  tag_requestId : string
}.

Record Request := {
  method : string;
  originalUrl : string;
  reqHeaders : obj string;
  body : string;
  body_parsed : bool;
  requestId : option string;
  gateway : option GatewayTag
}.

(** The JSON payloads the gateway itself produces. *)
Record HealthEntry := {
  he_name : string;
  he_status : string;
  he_lastHealthCheck : option Z;
  he_responseTime : option string
}.

Record ServiceEntry := {
  se_name : string;
  se_url : string;
  se_status : string;
  se_routes : list string;
  se_lastHealthCheck : option Z;
  se_responseTime : option string;
  se_healthy : bool
}.

Record InfoEntry := {
  ie_id : string;
  ie_name : string;
  ie_routes : list string;
  ie_status : string
}.

Inductive Payload :=
| HealthReport (status : string) (version : string) (timestamp : Z)
    (services : obj HealthEntry) (totalServices healthyServices : nat)
| ServicesReport (success : bool) (data : obj ServiceEntry)
    (total healthy unhealthy unknown : nat) (timestamp : Z)
| GatewayInfo (message version : string) (features : list string)
    (services : list InfoEntry) (endpoints : obj string) (timestamp : Z)
| RouteNotFound (error message : string) (availableServices : list string)
    (suggestions : list string) (requestId : option string) (timestamp : Z)
| ServiceUnavailable (error message service : string)
    (requestId : option string) (timestamp : Z) (retryAfter : Z)
    (suggestions : list string)
| Relayed (raw : string).

Record Response := {
  statusCode : Z;
  headers : obj (option string);
  payload : Payload
}.

(** What the backend sent back to the proxy. *)
Record ProxyRes := {
  pres_statusCode : Z;
  pres_headers : obj (option string);
  pres_body : string
}.

(** The outgoing request the proxy sends to the backend. *)
Record ProxyReq := {
  preq_target : string;
  preq_method : string;
  preq_path : string;
  preq_headers : obj string;
  preq_body : string
}.

(** ** The Express application *)

(** What a layer of the application stack does. A proxy layer keeps what
    [createServiceProxy] closed over: the key, the descriptor object, the
    [target] read from it at creation, and the [pathRewrite] rule. *)
Inductive Handler :=
| ServiceDiscovery
| HealthRoute
| InfoRoute
| ServicesRoute
| ServiceProxy (serviceKey : string) (service : ref) (target : string)
    (pathRewrite : string * string)
| Fallback.

Inductive Verb := Use | Get.

Record Layer := {
  verb : Verb;
  mountpath : string;
  handler : Handler
}.

(** The gateway object: [this.app], [this.services], and the heap the
    registry's values point into. ([this.healthChecks] is created and never
    used; [this.port] plays no role before [listen].) *)
Record Gateway := {
  app : list Layer;
  services : JsMap.t ref;
  store : heap
}.

Definition with_store (h : heap) (g : Gateway) : Gateway :=
  {| app := app g; services := services g; store := h |}.

Definition app_use (path : string) (f : Handler) (g : Gateway) : Gateway :=
  {| app := app g ++ [{| verb := Use; mountpath := path; handler := f |}];
     services := services g; store := store g |}.

Definition app_get (path : string) (f : Handler) (g : Gateway) : Gateway :=
  {| app := app g ++ [{| verb := Get; mountpath := path; handler := f |}];
     services := services g; store := store g |}.

(** *** Path matching

    Express compiles a layer's path to a case-insensitive, non-strict regular
    expression; [use] layers match a prefix that ends at a segment boundary,
    route layers match the whole path. The three forms this application
    uses are covered: a literal path, [prefix/*] and [*]. *)

Definition lower_ascii (c : Ascii.ascii) : Ascii.ascii :=
  let n := Ascii.N_of_ascii c in
  if ((65 <=? n) && (n <=? 90))%N then Ascii.ascii_of_N (n + 32) else c.

Fixpoint lower (s : string) : string :=
  match s with
  | EmptyString => EmptyString
  | String c s' => String (lower_ascii c) (lower s')
  end.

(** [s] begins with [p]. *)
Fixpoint starts_with (p s : string) : bool :=
  match p with
  | EmptyString => true
  | String a p' =>
      match s with
      | EmptyString => false
      | String b s' => Ascii.eqb a b && starts_with p' s'
      end
  end.

(** [req.path]: the URL up to the query string. *)
Fixpoint pathname (u : string) : string :=
  match u with
  | EmptyString => EmptyString
  | String c u' => if Ascii.eqb c "?"%char then EmptyString else String c (pathname u')
  end.

(** [Some stem] when the path is [stem ++ "*"]. *)
Fixpoint strip_star (p : string) : option string :=
  match p with
  | EmptyString => None
  | String c EmptyString => if Ascii.eqb c "*"%char then Some EmptyString else None
  | String c p' => String c <$> strip_star p'
  end.

(** The path without one trailing slash. *)
Fixpoint strip_slash (p : string) : string :=
  match p with
  | EmptyString => EmptyString
  | String c EmptyString => if Ascii.eqb c "/"%char then EmptyString else p
  | String c p' => String c (strip_slash p')
  end.

Definition use_matches (mount path : string) : bool :=
  match strip_star mount with
  | Some stem => starts_with (lower stem) (lower path)
  | None =>
      let stem := lower (strip_slash mount) in
      String.eqb (lower path) stem || starts_with (stem +:+ "/") (lower path)
  end.

Definition route_matches (route path : string) : bool :=
  let stem := lower (strip_slash route) in
  String.eqb (lower path) stem || String.eqb (lower path) (stem +:+ "/").

(** A [get] route also serves HEAD. *)
Definition layer_matches (l : Layer) (req : Request) : bool :=
  match verb l with
  | Use => use_matches (mountpath l) (pathname (originalUrl req))
  | Get =>
      route_matches (mountpath l) (pathname (originalUrl req))
      && (String.eqb (method req) "GET" || String.eqb (method req) "HEAD")
  end.

(** ** registerServices *)

(** [this.services.set(key, { ... })] with a new descriptor object. *)
Definition register (key : string) (d : ServiceDescriptor) (g : Gateway)
  : Gateway :=
  let '(h, r) := alloc d (store g) in
  {| app := app g; services := JsMap.set key r (services g); store := h |}.

Definition user_service : ServiceDescriptor :=
  {| name := "User Service"; url := "http://localhost:3002";
     health := "http://localhost:3002/health";
     routes := ["/api/users"; "/api/auth"];
     status := "unknown"; lastHealthCheck := None; responseTime := None |}.

Definition product_service : ServiceDescriptor :=
  {| name := "Product Service"; url := "http://localhost:3003";
     health := "http://localhost:3003/health";
     routes := ["/api/products"];
     status := "unknown"; lastHealthCheck := None; responseTime := None |}.

Definition order_service : ServiceDescriptor :=
  {| name := "Order Service"; url := "http://localhost:3004";
     health := "http://localhost:3004/health";
     routes := ["/api/orders"];
     status := "unknown"; lastHealthCheck := None; responseTime := None |}.

Definition registerServices (g : Gateway) : Gateway :=
  register "order-service" order_service
    (register "product-service" product_service
       (register "user-service" user_service g)).

(** ** Introspection routes *)

(** [Array.from(this.services.values()).filter(s => s.status === v).length] *)
Definition count_status (v : string) (g : Gateway) : nat :=
  length (filter (λ r, status (deref (store g) r) = v)
            (JsMap.values (services g))).

Definition health_entry (s : ServiceDescriptor) : HealthEntry :=
  {| he_name := name s; he_status := status s;
     he_lastHealthCheck := lastHealthCheck s;
     he_responseTime := responseTime s |}.

(** [every(s => s.status === 'healthy')] over the registry's values. *)
Definition overallHealth (g : Gateway) : bool :=
  forallb (λ r, String.eqb (status (deref (store g) r)) "healthy")
    (JsMap.values (services g)).

(** The loop [for (const [key, service] of this.services.entries())
    o[key] = f(service)] that both reports start with. *)
Definition collect {A} (f : ServiceDescriptor -> A) (g : Gateway) : obj A :=
  foldl (λ acc '(key, r), prop_set key (f (deref (store g) r)) acc)
    [] (JsMap.entries (services g)).

(** [GET /health]. [process.uptime()] is left out of the payload. *)
Definition healthRoute (g : Gateway) (now : Z) : Response :=
  let overall := overallHealth g in
  {| statusCode := if overall then 200 else 503;
     headers := [];
     payload :=
       HealthReport (if overall then "healthy" else "degraded") "1.0.0" now
         (collect health_entry g) (JsMap.size (services g))
         (count_status "healthy" g) |}.

Definition service_entry (s : ServiceDescriptor) : ServiceEntry :=
  {| se_name := name s; se_url := url s; se_status := status s;
     se_routes := routes s; se_lastHealthCheck := lastHealthCheck s;
     se_responseTime := responseTime s;
     se_healthy := String.eqb (status s) "healthy" |}.

(** [GET /services]; [res.json] answers 200. *)
Definition servicesRoute (g : Gateway) (now : Z) : Response :=
  {| statusCode := 200;
     headers := [];
     payload :=
       ServicesReport true (collect service_entry g) (JsMap.size (services g))
         (count_status "healthy" g) (count_status "unhealthy" g)
         (count_status "unknown" g) now |}.

(** [GET /]. *)
Definition infoRoute (g : Gateway) (now : Z) : Response :=
  {| statusCode := 200;
     headers := [];
     payload :=
       GatewayInfo "API Gateway - Microservices Router" "1.0.0"
         ["Service Discovery"; "Load Balancing"; "Health Monitoring";
          "Request Routing"; "Rate Limiting"; "Circuit Breaker";
          "Request/Response Transformation"]
         ((λ '(key, r),
             let service := deref (store g) r in
             {| ie_id := key; ie_name := name service;
                ie_routes := routes service; ie_status := status service |})
            <$> JsMap.entries (services g))
         [("health", "/health"); ("services", "/services");
          ("users", "/api/users/*"); ("products", "/api/products/*");
          ("orders", "/api/orders/*")]
         now |}.

(** The fallback [app.use('*', ...)]. *)
Definition fallbackRoute (g : Gateway) (req : Request) (now : Z) : Response :=
  {| statusCode := 404;
     headers := [];
     payload :=
       RouteNotFound "Route not found"
         ("Gateway cannot route " +:+ method req +:+ " " +:+ originalUrl req)
         (JsMap.keys (services g))
         ["Check if the target service is running";
          "Verify the route path is correct";
          "Check service registration in gateway"]
         (requestId req) now |}.

(** The service-discovery middleware: tags the request with a new uuid
    and the arrival time. *)
Definition serviceDiscovery (uuid : string) (now : Z) (req : Request) : Request :=
  {| method := method req; originalUrl := originalUrl req;
     reqHeaders := reqHeaders req; body := body req;
     body_parsed := body_parsed req; requestId := Some uuid;
     gateway := Some {| tag_timestamp := now; tag_version := "1.0.0";
                        tag_requestId := uuid |} |}.

(** ** The service proxy *)

(** The calendar rendering of [toISOString] is not modelled: where a
    timestamp has to be a string, the clock value is written in decimal. *)
Definition toISOString (t : Z) : string := pretty t.

(** [createServiceProxy(serviceKey, options)]: [None] is the thrown
    [Service ... not found]. *)
Definition createServiceProxy (serviceKey : string) (pathRewrite : string * string)
    (g : Gateway) : option Handler :=
  match JsMap.get serviceKey (services g) with
  | None => None
  | Some service =>
      Some (ServiceProxy serviceKey service (url (deref (store g) service))
              pathRewrite)
  end.

(** [onError]: the circuit-breaker branch. *)
Definition onError (serviceKey : string) (service : ref) (req : Request)
    (now : Z) (h : heap) : heap * Response :=
  let h := assign service (set_status "unhealthy") h in
  let h := assign service (set_lastHealthCheck (Some now)) h in
  (h,
   {| statusCode := 503;
      headers := [];
      payload :=
        ServiceUnavailable "Service unavailable"
          (name (deref h service) +:+ " is currently unavailable")
          serviceKey (requestId req) now 30
          ["Try again in a few moments";
           "Check service status at /services";
           "Contact support if problem persists"] |}).

(** [proxyReq.setHeader(k, v)]. An outgoing request keeps its headers under
    their lower-cased names, which is also how the incoming headers it
    starts from are keyed. *)
Definition setHeader (k v : string) (p : ProxyReq) : ProxyReq :=
  {| preq_target := preq_target p; preq_method := preq_method p;
     preq_path := preq_path p;
     preq_headers := prop_set (lower k) v (preq_headers p);
     preq_body := preq_body p |}.

(** [onProxyReq]: [None] when the request was never tagged, where the
    source would throw on [req.gateway.timestamp]. *)
Definition onProxyReq (proxyReq : ProxyReq) (req : Request) : option ProxyReq :=
  match requestId req, gateway req with
  | Some rid, Some tag =>
      Some (setHeader "X-Forwarded-By" "api-gateway"
              (setHeader "X-Gateway-Version" (tag_version tag)
                 (setHeader "X-Gateway-Timestamp" (toISOString (tag_timestamp tag))
                    (setHeader "X-Gateway-Request-ID" rid proxyReq))))
  | _, _ => None
  end.

(** [onProxyRes]: tags the backend's response and, below 500, marks the
    service healthy. *)
Definition onProxyRes (serviceKey : string) (service : ref) (proxyRes : ProxyRes)
    (req : Request) (now : Z) (h : heap) : heap * ProxyRes :=
  let proxyRes :=
    {| pres_statusCode := pres_statusCode proxyRes;
       pres_headers :=
         prop_set "X-Gateway-Request-ID" (requestId req)
           (prop_set "X-Gateway-Service" (Some serviceKey)
              (pres_headers proxyRes));
       pres_body := pres_body proxyRes |} in
  if pres_statusCode proxyRes <? 500 then
    let h := assign service (set_status "healthy") h in
    let h := assign service (set_lastHealthCheck (Some now)) h in
    (h, proxyRes)
  else (h, proxyRes).

(** [pathRewrite: { '^from': to }]. *)
Definition rewritePath (rule : string * string) (path : string) : string :=
  let '(from, to) := rule in
  if starts_with from path
  then to +:+ String.substring (String.length from)
                (String.length path - String.length from) path
  else path.

(** A request the proxy has forwarded and not yet settled. *)
Record Proxying := {
  px_serviceKey : string;
  px_service : ref;
  px_req : Request;
  px_proxyReq : ProxyReq
}.

(** What the backend does with a forwarded request: it answers, or the
    exchange breaks with an error that http-proxy hands to [onError]
    (connection refused or reset, host not found). A backend that stays
    silent is neither: see [Aborted] below. *)
Inductive Backend :=
| Answered (proxyRes : ProxyRes)
| Failed (err : string).

(** What the proxy pipes to the backend as the body: the request stream,
    of which nothing is left once a body parser has read it. No option of
    [createServiceProxy] writes a parsed body back. *)
Definition piped (req : Request) : string :=
  if body_parsed req then "" else body req.

(** The proxy middleware, first half: build the outgoing request towards
    [target] and run [onProxyReq] on it. *)
Definition proxy_forward (serviceKey : string) (service : ref) (target : string)
    (pathRewrite : string * string) (req : Request) : option Proxying :=
  let proxyReq :=
    {| preq_target := target; preq_method := method req;
       preq_path := rewritePath pathRewrite (originalUrl req);
       preq_headers := reqHeaders req; preq_body := piped req |} in
  proxyReq' ← onProxyReq proxyReq req;
  Some {| px_serviceKey := serviceKey; px_service := service; px_req := req;
          px_proxyReq := proxyReq' |}.

(** Second half: on a response run [onProxyRes] and pipe the backend's
    status, headers and body to the caller; on failure run [onError]. *)
Definition proxy_settle (p : Proxying) (b : Backend) (now : Z) (h : heap)
  : heap * Response :=
  match b with
  | Answered proxyRes =>
      let '(h, proxyRes) :=
        onProxyRes (px_serviceKey p) (px_service p) proxyRes (px_req p) now h in
      (h, {| statusCode := pres_statusCode proxyRes;
             headers := pres_headers proxyRes;
             payload := Relayed (pres_body proxyRes) |})
  | Failed _ => onError (px_serviceKey p) (px_service p) (px_req p) now h
  end.

(** ** Dispatch through the application stack *)

Inductive Outcome :=
| Sent (res : Response)
| Forwarded (p : Proxying)
| Threw
| Unhandled.

Fixpoint dispatch (stack : list Layer) (g : Gateway) (uuid : string) (now : Z)
    (req : Request) : Outcome :=
  match stack with
  | [] => Unhandled
  | l :: stack' =>
      if layer_matches l req then
        match handler l with
        | ServiceDiscovery =>
            dispatch stack' g uuid now (serviceDiscovery uuid now req)
        | HealthRoute => Sent (healthRoute g now)
        | InfoRoute => Sent (infoRoute g now)
        | ServicesRoute => Sent (servicesRoute g now)
        | ServiceProxy serviceKey service target pathRewrite =>
            match proxy_forward serviceKey service target pathRewrite req with
            | Some p => Forwarded p
            | None => Threw
            end
        | Fallback => Sent (fallbackRoute g req now)
        end
      else dispatch stack' g uuid now req
  end.

(** ** setupMiddleware, setupRoutes *)

Definition setupMiddleware (g : Gateway) : Gateway :=
  app_use "/api/*" ServiceDiscovery g.

(** [None] when a [createServiceProxy] throws. *)
Definition setupServiceProxies (g : Gateway) : option Gateway :=
  users ← createServiceProxy "user-service" ("/api/users", "/api/users") g;
  let g := app_use "/api/users" users g in
  products ← createServiceProxy "product-service" ("/api/products", "/api/products") g;
  let g := app_use "/api/products" products g in
  orders ← createServiceProxy "order-service" ("/api/orders", "/api/orders") g;
  Some (app_use "/api/orders" orders g).

Definition setupRoutes (g : Gateway) : option Gateway :=
  let g := app_get "/health" HealthRoute g in
  let g := app_get "/" InfoRoute g in
  let g := app_get "/services" ServicesRoute g in
  g ← setupServiceProxies g;
  Some (app_use "*" Fallback g).

(** ** The health prober *)

(** A [checkServiceHealth] call suspended at [await axios.get(...)]: the
    descriptor object it looked up, the address it asked, and [start]. *)
Record Probe := {
  probe_service : ref;
  probe_url : string;
  probe_start : Z
}.

(** How the HTTP exchange behind [axios.get] ends: a response with some
    status, or no response at all (refused, reset, 5000 ms timeout). *)
Inductive AxiosResult :=
| AxiosResponse (status : Z)
| AxiosFailure (message : string).

Definition probeTimeout : Z := 5000.

Definition validateStatus (status : Z) : bool := status <? 500.

(** [checkServiceHealth] up to the [await]; [None] is the early [return]. *)
Definition checkServiceHealth (serviceKey : string) (now : Z) (g : Gateway)
  : option Probe :=
  service ← JsMap.get serviceKey (services g);
  Some {| probe_service := service;
          probe_url := health (deref (store g) service);
          probe_start := now |}.

(** The [catch] block. *)
Definition probe_failed (service : ref) (now : Z) (h : heap) : heap :=
  let h := assign service (set_status "unhealthy") h in
  let h := assign service (set_lastHealthCheck (Some now)) h in
  assign service (set_responseTime (Some "timeout")) h.

(** [checkServiceHealth] after the [await]. axios rejects a response that
    [validateStatus] refuses, so such a response lands in the [catch]. *)
Definition checkServiceHealth_resume (p : Probe) (r : AxiosResult) (now : Z)
    (h : heap) : heap :=
  let service := probe_service p in
  match r with
  | AxiosResponse st =>
      if validateStatus st then
        let responseTime := now - probe_start p in
        let h :=
          assign service
            (set_status (if st =? 200 then "healthy" else "unhealthy")) h in
        let h := assign service (set_lastHealthCheck (Some now)) h in
        assign service (set_responseTime (Some (pretty responseTime +:+ "ms"))) h
      else probe_failed service now h
  | AxiosFailure _ => probe_failed service now h
  end.

(** [for (const serviceKey of this.services.keys())
      this.checkServiceHealth(serviceKey)] *)
Definition probe_pass (now : Z) (g : Gateway) : list Probe :=
  omap (λ serviceKey, checkServiceHealth serviceKey now g)
    (JsMap.keys (services g)).

Definition healthInterval : Z := 30000.

(** ** The running gateway *)

(** The gateway object together with what the event loop holds for it: the
    clock, the suspended probes, the forwarded requests, and the due time of
    the [setInterval] timer. *)
Record World := {
  gw : Gateway;
  clock : Z;
  probes : list Probe;
  proxying : list Proxying;
  timer_due : Z
}.

(** [startHealthMonitoring]: one pass at once, then the interval timer. *)
Definition startHealthMonitoring (now : Z) (g : Gateway) : World :=
  {| gw := g; clock := now; probes := probe_pass now g; proxying := [];
     timer_due := now + healthInterval |}.

(** The constructor up to [startHealthMonitoring]; [None] when
    [setupRoutes] throws. *)
Definition boot : option Gateway :=
  let g := {| app := []; services := JsMap.empty; store := [] |} in
  let g := setupMiddleware g in
  let g := registerServices g in
  setupRoutes g.

(** [new APIGateway()] at time [now]. *)
Definition construct (now : Z) : option World :=
  g ← boot;
  Some (startHealthMonitoring now g).

(** What the event loop can be handed: time passing; a request reaching
    the application stack, with the uuid [uuid.v4()] will draw for it; the
    backend's outcome for the [i]-th forwarded request; the caller's socket
    of the [i]-th forwarded request being destroyed; the outcome of the
    [i]-th suspended probe; the interval timer firing.

    [Aborted] is how a forwarded request ends when the backend stays
    silent. [createServiceProxy] sets [timeout: 30000], the idle timeout
    of the caller's socket, and [proxyTimeout: 30000], that of the outgoing
    request, which starts no earlier; so the caller's socket is destroyed
    first, as it also is when the caller hangs up. The proxy then aborts
    the outgoing request and calls neither [onError] nor [onProxyRes]:
    nothing is sent and no descriptor is written. *)
Inductive Event :=
| Elapse (d : Z)
| Arrive (uuid : string) (req : Request)
| Settle (i : nat) (b : Backend)
| Aborted (i : nat)
| ProbeDone (i : nat) (r : AxiosResult)
| Tick.

(** One turn of the event loop, with the response sent in it, if any.
    [None]: the event cannot happen in this state. The timer fires no
    earlier than it is due and is re-armed one interval after it fired. *)
Definition step (w : World) (e : Event) : option (World * option Response) :=
  match e with
  | Elapse d =>
      if 0 <=? d then
        Some ({| gw := gw w; clock := clock w + d; probes := probes w;
                 proxying := proxying w; timer_due := timer_due w |}, None)
      else None
  | Arrive uuid req =>
      match dispatch (app (gw w)) (gw w) uuid (clock w) req with
      | Sent res => Some (w, Some res)
      | Forwarded p =>
          Some ({| gw := gw w; clock := clock w; probes := probes w;
                   proxying := proxying w ++ [p]; timer_due := timer_due w |},
                None)
      | Threw | Unhandled => Some (w, None)
      end
  | Settle i b =>
      p ← proxying w !! i;
      let '(h, res) := proxy_settle p b (clock w) (store (gw w)) in
      Some ({| gw := with_store h (gw w); clock := clock w; probes := probes w;
               proxying := delete i (proxying w); timer_due := timer_due w |},
            Some res)
  | Aborted i =>
      _ ← proxying w !! i;
      Some ({| gw := gw w; clock := clock w; probes := probes w;
               proxying := delete i (proxying w); timer_due := timer_due w |},
            None)
  | ProbeDone i r =>
      p ← probes w !! i;
      let h := checkServiceHealth_resume p r (clock w) (store (gw w)) in
      Some ({| gw := with_store h (gw w); clock := clock w;
               probes := delete i (probes w); proxying := proxying w;
               timer_due := timer_due w |}, None)
  | Tick =>
      if timer_due w <=? clock w then
        Some ({| gw := gw w; clock := clock w;
                 probes := probes w ++ probe_pass (clock w) (gw w);
                 proxying := proxying w;
                 timer_due := clock w + healthInterval |}, None)
      else None
  end.

Fixpoint exec (evs : list Event) (w : World) : option World :=
  match evs with
  | [] => Some w
  | e :: evs' => '(w', _) ← step w e; exec evs' w'
  end.

Definition reachable (w : World) : Prop :=
  ∃ t0 evs w0, construct t0 = Some w0 ∧ exec evs w0 = Some w.

(** The descriptor the registry holds under [key]. *)
Definition descriptor (key : string) (g : Gateway) : option ServiceDescriptor :=
  deref (store g) <$> JsMap.get key (services g).

(** A body-less [GET] of [path], as it enters the stack. *)
Definition GET (path : string) : Request :=
  {| method := "GET"; originalUrl := path; reqHeaders := []; body := "";
     body_parsed := false; requestId := None; gateway := None |}.

(** The gateway object the constructor hands to [startHealthMonitoring]. *)
Definition booted : Gateway :=
  {| app :=
       [ {| verb := Use; mountpath := "/api/*"; handler := ServiceDiscovery |};
         {| verb := Get; mountpath := "/health"; handler := HealthRoute |};
         {| verb := Get; mountpath := "/"; handler := InfoRoute |};
         {| verb := Get; mountpath := "/services"; handler := ServicesRoute |};
         {| verb := Use; mountpath := "/api/users";
            handler := ServiceProxy "user-service" 0 "http://localhost:3002"
                         ("/api/users", "/api/users") |};
         {| verb := Use; mountpath := "/api/products";
            handler := ServiceProxy "product-service" 1 "http://localhost:3003"
                         ("/api/products", "/api/products") |};
         {| verb := Use; mountpath := "/api/orders";
            handler := ServiceProxy "order-service" 2 "http://localhost:3004"
                         ("/api/orders", "/api/orders") |};
         {| verb := Use; mountpath := "*"; handler := Fallback |} ];
     services :=
       [("user-service", 0%nat); ("product-service", 1%nat);
        ("order-service", 2%nat)];
     store := [user_service; product_service; order_service] |}.

(** * Concrete runs *)

(** The gateway right after construction at time 0, and the world a run of
    events from there ends in. *)
Definition started : World := startHealthMonitoring 0 booted.

(** Total on the runs below, which all succeed. *)
Definition world_after (evs : list Event) : World :=
  default started (exec evs started).

(** The user service's start-up probe has answered 200 after 12 ms. *)
Definition probed : list Event := [Elapse 12; ProbeDone 0 (AxiosResponse 200)].

(** [GET /api/users] has been forwarded to the user service. *)
Definition forwarding : list Event := [Arrive "req-1" (GET "/api/users")].

(** All three start-up probes have settled after 40 ms, and the first tick,
    at 30 s, has issued the next pass 100 ms ago. *)
Definition first_tick : list Event :=
  [Elapse 40; ProbeDone 0 (AxiosResponse 200); ProbeDone 0 (AxiosResponse 204);
   ProbeDone 0 (AxiosFailure "timeout of 5000ms exceeded");
   Elapse 29960; Tick; Elapse 100].

(** A backend answer with status 500 and body [boom]. *)
Definition boom : ProxyRes :=
  {| pres_statusCode := 500; pres_headers := []; pres_body := "boom" |}.

(** * Vocabulary of the properties *)

(** The registry as an object: what the loop over [entries()] builds when
    it copies the values unchanged. *)
Definition as_object {A} (m : JsMap.t A) : obj A :=
  foldl (λ acc '(k, v), prop_set k v acc) [] (JsMap.entries m).

(** The three field updates of the [catch] block of the prober, of its
    [try] block, and of the proxy callbacks, each as one update. *)
Definition mark_failed (now : Z) (d : ServiceDescriptor) : ServiceDescriptor :=
  set_responseTime (Some "timeout")
    (set_lastHealthCheck (Some now) (set_status "unhealthy" d)).

Definition mark_probed (st elapsed now : Z) (d : ServiceDescriptor)
  : ServiceDescriptor :=
  set_responseTime (Some (pretty elapsed +:+ "ms"))
    (set_lastHealthCheck (Some now)
       (set_status (if st =? 200 then "healthy" else "unhealthy") d)).

Definition mark_seen (v : string) (now : Z) (d : ServiceDescriptor)
  : ServiceDescriptor :=
  set_lastHealthCheck (Some now) (set_status v d).

(** Every turn leaves the application stack and the registry map alone,
    and the store is either untouched or one object gets one of the three
    markings. *)
Inductive store_step (h : heap) : heap → Prop :=
| store_same : store_step h h
| store_marked r f :
    (∃ v now, (v = "healthy" ∨ v = "unhealthy") ∧ f = mark_seen v now) ∨
    (∃ now, f = mark_failed now) ∨
    (∃ st elapsed now, f = mark_probed st elapsed now) →
    store_step h (assign r f h).

(** What holds of the gateway object and the event loop's bookkeeping in
    every world the constructor and the event loop can produce: registry
    keys are distinct and point into the store; every proxy layer, every
    forwarded request and every suspended probe holds the object the
    registry has under some key. *)
Record world_ok (w : World) : Prop := {
  ok_keys : NoDup (JsMap.keys (services (gw w)));
  ok_refs : ∀ key r,
    JsMap.get key (services (gw w)) = Some r → (r < length (store (gw w)))%nat;
  ok_layers : ∀ l key r target rw,
    l ∈ app (gw w) → handler l = ServiceProxy key r target rw →
    JsMap.get key (services (gw w)) = Some r;
  ok_proxying : ∀ p,
    p ∈ proxying w →
    JsMap.get (px_serviceKey p) (services (gw w)) = Some (px_service p);
  ok_probes : ∀ p,
    p ∈ probes w →
    ∃ key, JsMap.get key (services (gw w)) = Some (probe_service p)
}.

(** The response the proxy pipes to the caller for a backend answer. *)
Definition relay (serviceKey : string) (req : Request) (proxyRes : ProxyRes)
  : Response :=
  {| statusCode := pres_statusCode proxyRes;
     headers :=
       prop_set "X-Gateway-Request-ID" (requestId req)
         (prop_set "X-Gateway-Service" (Some serviceKey) (pres_headers proxyRes));
     payload := Relayed (pres_body proxyRes) |}.

(** The three status values. *)
Definition status_ok (v : string) : Prop :=
  v = "unknown" ∨ v = "healthy" ∨ v = "unhealthy".

(** Whether a route or a proxy layer of the stack takes the request, that
    is, any layer other than the tagging middleware and the fallback. *)
Definition routed (stack : list Layer) (req : Request) : bool :=
  existsb (λ l, match handler l with
                | ServiceDiscovery | Fallback => false
                | _ => layer_matches l req
                end) stack.

(** The proxy mounts of [setupServiceProxies]: mount path, service key, and
    the descriptor object and target the proxy closed over. *)
Definition mounts : list (string * string * ref * string) :=
  [("/api/users", "user-service", 0%nat, "http://localhost:3002");
   ("/api/products", "product-service", 1%nat, "http://localhost:3003");
   ("/api/orders", "order-service", 2%nat, "http://localhost:3004")].

(** While a service is [unknown], the probe issued for it at start-up is
    still in flight. *)
Definition unknown_pending (t0 : Z) (w : World) : Prop :=
  ∀ r, status (deref (store (gw w)) r) = "unknown" →
       ∃ p, p ∈ probes w ∧ probe_service p = r ∧ probe_start p = t0.

(** The fields of a descriptor that no code path assigns after
    registration. *)
Definition static (d : ServiceDescriptor)
  : string * string * string * list string :=
  (name d, url d, health d, routes d).

(** The three shapes of [responseTime]: [null], the sentinel, or a
    non-negative number of milliseconds. *)
Definition latency_ok (v : option string) : Prop :=
  v = None ∨ v = Some "timeout" ∨ ∃ n, 0 ≤ n ∧ v = Some (pretty n +:+ "ms").

(** How the three mutable fields of a descriptor hang together, for a
    gateway constructed at [t0] whose clock shows [now]. *)
Record coherent (t0 now : Z) (d : ServiceDescriptor) : Prop := {
  coh_unknown : status d = "unknown" ↔ lastHealthCheck d = None;
  coh_never : lastHealthCheck d = None → responseTime d = None;
  coh_time : ∀ t, lastHealthCheck d = Some t → t0 ≤ t ≤ now;
  coh_latency : latency_ok (responseTime d)
}.

Definition timeline (t0 : Z) (w : World) : Prop :=
  t0 ≤ clock w ∧
  Forall (coherent t0 (clock w)) (store (gw w)) ∧
  ∀ p, p ∈ probes w → t0 ≤ probe_start p ≤ clock w.

(** * The user service

    [src/microservices/user-service.js], the backend the gateway mounts at
    [/api/users] and probes at [http://localhost:3002/health]. Its [users]
    array is the only state. As for the gateway, helmet, cors and the body
    parser are not part of the embedding; [process.uptime()],
    [process.memoryUsage()] and [process.cpuUsage()] are left out of the
    health payload. Request targets are ASCII; a route parameter with a
    percent escape is outside the embedding ([Undecoded]). *)
Module UserService.

(** A JSON value the service only stores and echoes: absent, a string, or
    the text of any other value. *)
Inductive Value := Undefined | Str (s : string) | Json (text : string).

Record User := {
  id : Z;
  name : Value;
  email : Value;
  service : string
}.

(** [req.service], set by the service middleware on every request. *)
Record ServiceTag := {
  tag_name : string;
  tag_version : string;
  tag_port : option string;
  tag_timestamp : Z
}.

Record Req := {
  method : string;
  path : string;
  headers : obj string;
  query : obj Value;
  body : obj Value
}.

Inductive Body :=
| HealthBody (status service version : string) (port : option string)
    (timestamp : Z) (database : string)
| InfoBody (service version description : string) (endpoints : list string)
    (requestId timestamp version : option string) (now : Z)
| UsersBody (data : list User) (service : ServiceTag)
    (requestId forwardedBy : option string) (timestamp : Z)
| UserBody (data : User) (service : ServiceTag) (timestamp : Z)
| CreatedBody (message : string) (data : User) (service : ServiceTag)
    (timestamp : Z)
| ProfileBody (data : User) (joinDate : string) (lastLogin : Z)
    (theme : string) (notifications : bool) (service : ServiceTag)
    (timestamp : Z)
| ErrorBody (error : string) (service : ServiceTag) (timestamp : option Z)
| MessageBody (message : string).

Record Res := {
  status : Z;
  payload : Body
}.

(** The service object: [this.port] as the environment gave it ([None]:
    the default, 3002) and the [users] array of [setupRoutes]. *)
Record State := {
  port : option string;
  users : list User
}.

Definition serviceName : string := "User Service".
Definition version : string := "1.0.0".

Definition initial_users : list User :=
  [ {| id := 1; name := Str "John Doe"; email := Str "john@example.com";
       service := serviceName |};
    {| id := 2; name := Str "Jane Smith"; email := Str "jane@example.com";
       service := serviceName |};
    {| id := 3; name := Str "Mike Johnson"; email := Str "mike@example.com";
       service := serviceName |} ].

(** [new UserService()]. *)
Definition construct (env_port : option string) : State :=
  {| port := env_port; users := initial_users |}.

(** *** parseInt

    [parseInt(s)] with no radix, on ASCII text: leading white space, a
    sign, a [0x] prefix, then the longest run of digits; [None] is [NaN].
    The result is exact, as the JavaScript number is below 2^53. *)
Definition is_space (c : ascii) : bool :=
  let n := N_of_ascii c in
  ((9 <=? n) && (n <=? 13) || (n =? 32))%N.

Fixpoint trim_start (s : string) : string :=
  match s with
  | EmptyString => EmptyString
  | String c s' => if is_space c then trim_start s' else s
  end.

Definition digit (radix : Z) (c : ascii) : option Z :=
  let n := Z.of_N (N_of_ascii c) in
  let v :=
    if (48 <=? n) && (n <=? 57) then Some (n - 48)
    else if (97 <=? n) && (n <=? 102) then Some (n - 87)
    else if (65 <=? n) && (n <=? 70) then Some (n - 55)
    else None in
  v ≫= λ d, if d <? radix then Some d else None.

(** The value of the longest run of digits [s] starts with, continuing
    from [acc]; [None] while no digit has been read. *)
Fixpoint digits (radix : Z) (acc : option Z) (s : string) : option Z :=
  match s with
  | EmptyString => acc
  | String c s' =>
      match digit radix c with
      | Some d => digits radix (Some (default 0 acc * radix + d)) s'
      | None => acc
      end
  end.

Definition parseInt (s : string) : option Z :=
  let s := trim_start s in
  let '(sign, s) :=
    match s with
    | String c s' =>
        if Ascii.eqb c "-" then (-1, s')
        else if Ascii.eqb c "+" then (1, s') else (1, s)
    | EmptyString => (1, s)
    end in
  let '(radix, s) :=
    match s with
    | String c (String x s') =>
        if Ascii.eqb c "0" && (Ascii.eqb x "x" || Ascii.eqb x "X")
        then (16, s') else (10, s)
    | _ => (10, s)
    end in
  (λ n, sign * n) <$> digits radix None s.

(** *** Handlers *)

(** [req.headers[k]]. *)
Definition header (k : string) (req : Req) : option string :=
  prop_get k (headers req).

(** [o[k]] on a parsed query or body. *)
Definition field (k : string) (o : obj Value) : Value :=
  default Undefined (prop_get k o).

Definition serviceTag (st : State) (now : Z) : ServiceTag :=
  {| tag_name := serviceName; tag_version := version; tag_port := port st;
     tag_timestamp := now |}.

Definition health (st : State) (now : Z) : Res :=
  {| status := 200;
     payload := HealthBody "healthy" serviceName version (port st) now
                  "connected" |}.

Definition info (req : Req) (now : Z) : Res :=
  {| status := 200;
     payload :=
       InfoBody serviceName version "Handles user management operations"
         ["GET /health - Health check";
          "GET /api/users - Get all users";
          "POST /api/users - Create user";
          "GET /api/users/:id - Get user by ID";
          "PUT /api/users/:id - Update user";
          "DELETE /api/users/:id - Delete user"]
         (header "x-gateway-request-id" req)
         (header "x-gateway-timestamp" req)
         (header "x-gateway-version" req) now |}.

Definition getUsers (st : State) (req : Req) (now : Z) : Res :=
  {| status := 200;
     payload := UsersBody (users st) (serviceTag st now)
                  (header "x-gateway-request-id" req)
                  (header "x-forwarded-by" req) now |}.

(** [users.find(u => u.id === parseInt(param))]; [NaN] equals nothing. *)
Definition findUser (st : State) (param : string) : option User :=
  n ← parseInt param;
  List.find (λ u, id u =? n) (users st).

Definition getUser (st : State) (param : string) (now : Z) : Res :=
  match findUser st param with
  | None =>
      {| status := 404;
         payload := ErrorBody "User not found" (serviceTag st now) (Some now) |}
  | Some user =>
      {| status := 200; payload := UserBody user (serviceTag st now) now |}
  end.

Definition createUser (st : State) (req : Req) (now : Z) : State * Res :=
  let newUser :=
    {| id := Z.of_nat (length (users st)) + 1;
       name := field "name" (body req);
       email := field "email" (body req);
       service := serviceName |} in
  ({| port := port st; users := users st ++ [newUser] |},
   {| status := 201;
      payload := CreatedBody "User created successfully" newUser
                   (serviceTag st now) now |}).

Definition getProfile (st : State) (param : string) (now : Z) : Res :=
  match findUser st param with
  | None =>
      {| status := 404;
         payload := ErrorBody "User not found" (serviceTag st now) None |}
  | Some user =>
      {| status := 200;
         payload := ProfileBody user "2023-01-01" now "dark" true
                      (serviceTag st now) now |}
  end.

(** What a handler does with the response: send it now, send it after a
    delay, or nothing this service wrote (Express's own 404); [Undecoded]
    stands for a parameter with a percent escape. *)
Inductive Outcome :=
| Replied (res : Res)
| RepliedAfter (ms : Z) (res : Res)
| NoRoute
| Undecoded.

(** [req.query.type || 'server'], then the [switch]. *)
Definition simulateError (st : State) (req : Req) (now : Z) : Outcome :=
  let errorType :=
    match field "type" (query req) with
    | Undefined | Str EmptyString => Str "server"
    | v => v
    end in
  match errorType with
  | Str "timeout" =>
      RepliedAfter 35000
        {| status := 200; payload := MessageBody "This should timeout" |}
  | Str "server" =>
      Replied {| status := 500;
                 payload := ErrorBody "Simulated server error"
                              (serviceTag st now) (Some now) |}
  | Str "not-found" =>
      Replied {| status := 404;
                 payload := ErrorBody "Simulated not found error"
                              (serviceTag st now) (Some now) |}
  | _ =>
      Replied {| status := 400;
                 payload := ErrorBody "Invalid error type"
                              (serviceTag st now) (Some now) |}
  end.

(** *** Routes *)

(** A path up to its first slash, and the rest. *)
Fixpoint take_segment (s : string) : string * string :=
  match s with
  | EmptyString => (EmptyString, EmptyString)
  | String c s' =>
      if Ascii.eqb c "/" then (EmptyString, s)
      else let '(seg, rest) := take_segment s' in (String c seg, rest)
  end.

Fixpoint has_percent (s : string) : bool :=
  match s with
  | EmptyString => false
  | String c s' => Ascii.eqb c "%" || has_percent s'
  end.

Fixpoint drop_chars (n : nat) (s : string) : string :=
  match n, s with
  | S n', String _ s' => drop_chars n' s'
  | _, _ => s
  end.

(** The parameter of a route [stem/:id tail], if the path matches it: one
    non-empty segment between the stem and the tail, compared without case
    and with an optional closing slash. *)
Definition param_route (stem tail path : string) : option string :=
  if starts_with (lower stem +:+ "/") (lower path) then
    let '(seg, rest) := take_segment (drop_chars (String.length stem + 1) path) in
    if String.eqb seg "" then None
    else if String.eqb (lower rest) (lower tail)
            || String.eqb (lower rest) (lower tail +:+ "/")
    then Some seg else None
  else None.

Definition reads (req : Req) : bool :=
  String.eqb (method req) "GET" || String.eqb (method req) "HEAD".

(** The routes of [setupRoutes], in the order they are added. A route
    takes a request when its path matches and it has a handler for the
    method; a parameter is decoded when the path matches, whatever the
    method. *)
Definition dispatch (st : State) (now : Z) (req : Req) : State * Outcome :=
  if route_matches "/health" (path req) && reads req then
    (st, Replied (health st now))
  else if route_matches "/" (path req) && reads req then
    (st, Replied (info req now))
  else if route_matches "/api/users" (path req) && reads req then
    (st, Replied (getUsers st req now))
  else
    let simulate :=
      if route_matches "/api/users/simulate-error" (path req) && reads req
      then (st, simulateError st req now)
      else (st, NoRoute) in
    let profile :=
      match param_route "/api/users" "/profile" (path req) with
      | Some param =>
          if has_percent param then (st, Undecoded)
          else if reads req then (st, Replied (getProfile st param now))
          else simulate
      | None => simulate
      end in
    let create :=
      if route_matches "/api/users" (path req)
         && String.eqb (method req) "POST"
      then let '(st', res) := createUser st req now in (st', Replied res)
      else profile in
    match param_route "/api/users" "" (path req) with
    | Some param =>
        if has_percent param then (st, Undecoded)
        else if reads req then (st, Replied (getUser st param now))
        else create
    | None => create
    end.

(** The request the service sees for what the gateway's proxy sent, with
    the query and the body as Express parsed them. *)
Definition receive (proxyReq : ProxyReq) (parsed_query parsed_body : obj Value)
  : Req :=
  {| method := preq_method proxyReq; path := pathname (preq_path proxyReq);
     headers := preq_headers proxyReq; query := parsed_query;
     body := parsed_body |}.

(** The service after a sequence of requests, each with its arrival time. *)
Fixpoint serve (reqs : list (Z * Req)) (st : State) : State :=
  match reqs with
  | [] => st
  | (now, req) :: reqs' => serve reqs' (dispatch st now req).1
  end.

(** The ids are [1 .. users.length], in order. *)
Definition ids_in_order (st : State) : Prop :=
  id <$> users st = seqZ 1 (Z.of_nat (length (users st))).

End UserService.

(** ** Requests used in the concrete runs of the further properties *)

(** A [POST /health] to the gateway, and requests to the user service. *)
Definition post_health : Request :=
  {| method := "POST"; originalUrl := "/health"; reqHeaders := []; body := "";
     body_parsed := false; requestId := None; gateway := None |}.


Definition list_users : UserService.Req :=
  {| UserService.method := "GET"; UserService.path := "/api/users";
     UserService.headers := []; UserService.query := [];
     UserService.body := [] |}.

Definition create_ann : UserService.Req :=
  {| UserService.method := "POST"; UserService.path := "/api/users";
     UserService.headers := []; UserService.query := [];
     UserService.body := [("name", UserService.Str "Ann");
                          ("email", UserService.Str "ann@example.com")] |}.

Definition simulate_server_error : UserService.Req :=
  {| UserService.method := "GET";
     UserService.path := "/api/users/simulate-error";
     UserService.headers := [];
     UserService.query := [("type", UserService.Str "server")];
     UserService.body := [] |}.

Definition put_user : UserService.Req :=
  {| UserService.method := "PUT"; UserService.path := "/api/users/1";
     UserService.headers := []; UserService.query := [];
     UserService.body := [("name", UserService.Str "Ann")] |}.

Definition get_health : UserService.Req :=
  {| UserService.method := "GET"; UserService.path := "/health";
     UserService.headers := []; UserService.query := [];
     UserService.body := [] |}.


(** * Properties *)

(** ** Objects and maps *)

Section prop_facts.
Context {A B : Type}.
Implicit Types (o : obj A) (k : string) (F : A → B).

Lemma prop_get_set_eq k (v : A) o : prop_get k (prop_set k v o) = Some v.
Proof.
  induction o as [|[k' v'] o IH]; simpl.
  - by rewrite String.eqb_refl.
  - destruct (String.eqb k k') eqn:E; simpl; rewrite ?String.eqb_refl, ?E; done.
Qed.

Lemma prop_get_set_ne k k' (v : A) o :
  k ≠ k' → prop_get k' (prop_set k v o) = prop_get k' o.
Proof.
  intros Hne.
  assert (String.eqb k' k = false) as Hk' by (apply String.eqb_neq; congruence).
  induction o as [|[k0 v0] o IH]; simpl.
  - by rewrite Hk'.
  - destruct (String.eqb_spec k k0) as [<-|Hk]; simpl.
    + by rewrite Hk'.
    + by rewrite IH.
Qed.

Lemma prop_set_fresh k (v : A) o : k ∉ o.*1 → prop_set k v o = o ++ [(k, v)].
Proof.
  induction o as [|[k' v'] o IH]; simpl; [done|].
  rewrite not_elem_of_cons. intros [Hk Ho].
  apply String.eqb_neq in Hk as ->. by rewrite IH.
Qed.

Lemma prop_set_fmap F k (v : A) o :
  prop_set k (F v) (prod_map id F <$> o) = prod_map id F <$> prop_set k v o.
Proof.
  induction o as [|[k' v'] o IH]; simpl; [done|].
  destruct (String.eqb k k'); simpl; [done|]. f_equal. apply IH.
Qed.

Lemma prop_get_fmap F k o :
  prop_get k (prod_map id F <$> o) = F <$> prop_get k o.
Proof.
  induction o as [|[k' v'] o IH]; simpl; [done|].
  by destruct (String.eqb k k').
Qed.

Lemma prop_get_Some k (v : A) o : prop_get k o = Some v → (k, v) ∈ o.
Proof.
  induction o as [|[k' v'] o IH]; simpl; [done|].
  destruct (String.eqb_spec k k') as [->|_].
  - intros [= ->]. apply list_elem_of_here.
  - intros. apply list_elem_of_further. auto.
Qed.

Lemma prop_get_elem k (v : A) o :
  NoDup o.*1 → (k, v) ∈ o → prop_get k o = Some v.
Proof.
  induction o as [|[k' v'] o IH]; simpl.
  - by intros _ ?%elem_of_nil.
  - rewrite NoDup_cons, elem_of_cons. intros [Hk Hnd] [[= -> ->]|Hin].
    + by rewrite String.eqb_refl.
    + destruct (String.eqb_spec k k') as [->|_]; [|auto].
      destruct Hk. apply list_elem_of_fmap. by exists (k', v).
Qed.

(** Filling an object from entries with distinct new keys keeps them in
    order. *)
Lemma foldl_prop_set_nodup (m : list (string * A)) o :
  NoDup (o.*1 ++ m.*1) →
  foldl (λ acc '(k, v), prop_set k v acc) o m = o ++ m.
Proof.
  revert o. induction m as [|[k v] m IH]; intros o; simpl.
  - intros _. by rewrite app_nil_r.
  - intros Hnd. rewrite prop_set_fresh.
    + rewrite IH; [by rewrite <-app_assoc|].
      by rewrite fmap_app, <-app_assoc.
    + apply NoDup_app in Hnd as (_ & Hdisj & _).
      intros Hin. apply (Hdisj _ Hin). apply list_elem_of_here.
Qed.

Lemma foldl_prop_set_fmap F (m : list (string * A)) o :
  foldl (λ acc '(k, v), prop_set k (F v) acc) (prod_map id F <$> o) m
  = prod_map id F <$> foldl (λ acc '(k, v), prop_set k v acc) o m.
Proof.
  revert o. induction m as [|[k v] m IH]; intros o; simpl; [done|].
  by rewrite prop_set_fmap, IH.
Qed.
End prop_facts.

Lemma as_object_nodup {A} (m : JsMap.t A) : NoDup (JsMap.keys m) → as_object m = m.
Proof. intros Hnd. unfold as_object, JsMap.entries. by rewrite foldl_prop_set_nodup. Qed.

Lemma collect_as_object {A} (f : ServiceDescriptor → A) (g : Gateway) :
  collect f g = prod_map id (λ r, f (deref (store g) r)) <$> as_object (services g).
Proof.
  unfold collect, as_object.
  rewrite <-(foldl_prop_set_fmap (λ r, f (deref (store g) r)) _ []). simpl.
  f_equal.
Qed.

Lemma collect_keys {A} (f : ServiceDescriptor → A) (g : Gateway) :
  Object_keys (collect f g) = Object_keys (as_object (services g)).
Proof.
  rewrite collect_as_object. unfold Object_keys.
  rewrite <-list_fmap_compose. apply list_fmap_ext. by intros ? [].
Qed.

Lemma collect_get {A} (f : ServiceDescriptor → A) (g : Gateway) key :
  prop_get key (collect f g)
  = (λ r, f (deref (store g) r)) <$> prop_get key (as_object (services g)).
Proof. by rewrite collect_as_object, prop_get_fmap. Qed.

Lemma overallHealth_true (g : Gateway) :
  overallHealth g = true ↔
  ∀ r, r ∈ JsMap.values (services g) → status (deref (store g) r) = "healthy".
Proof.
  unfold overallHealth. rewrite forallb_forall. split.
  - intros H r Hr. apply String.eqb_eq, H. by apply list_elem_of_In.
  - intros H r Hr. apply String.eqb_eq, H. by apply list_elem_of_In.
Qed.

Lemma JsMap_get_values {A} (m : JsMap.t A) (r : A) :
  NoDup (JsMap.keys m) →
  r ∈ JsMap.values m ↔ ∃ key, JsMap.get key m = Some r.
Proof.
  intros Hnd. unfold JsMap.values, JsMap.get. rewrite list_elem_of_fmap. split.
  - intros ([k r'] & -> & Hin). exists k. by apply prop_get_elem.
  - intros [k Hk]. exists (k, r). split; [done|]. by apply prop_get_Some.
Qed.

(** ** Heap *)

Section heap_facts.
Implicit Types (h : heap) (r : ref) (f : ServiceDescriptor → ServiceDescriptor).

Lemma length_assign r f h : length (assign r f h) = length h.
Proof. apply length_alter. Qed.

Lemma deref_assign_eq r f h :
  (r < length h)%nat → deref (assign r f h) r = f (deref h r).
Proof. apply list_lookup_total_alter_eq. Qed.

Lemma deref_assign_ne r r' f h : r ≠ r' → deref (assign r f h) r' = deref h r'.
Proof. apply list_lookup_total_alter_ne. Qed.

Lemma deref_assign r r' f h :
  deref (assign r f h) r'
  = if decide (r = r' ∧ (r < length h)%nat) then f (deref h r) else deref h r'.
Proof. apply list_lookup_total_alter. Qed.

Lemma assign_assign r f f' h :
  assign r f (assign r f' h) = assign r (f ∘ f') h.
Proof. apply list_alter_alter_eq. Qed.

(** An assignment to one field leaves every other field of every object
    as it was. *)
Lemma deref_assign_frame {A} (proj : ServiceDescriptor → A) r r' f h :
  (∀ d, proj (f d) = proj d) →
  proj (deref (assign r f h) r') = proj (deref h r').
Proof.
  intros Hf. unfold deref, assign. rewrite list_lookup_total_alter.
  case_decide as H; [|done]. destruct H as [-> _]. apply Hf.
Qed.
End heap_facts.

(** ** GET /health and GET /services *)

(** C2. [GET /health] answers 200 with overall status [healthy] exactly when
    every registered descriptor's status is [healthy], and otherwise 503 with
    [degraded]; its [services] object has one entry per registered key, with
    that descriptor's name, status, last-check time and latency. *)
Theorem health_report_aggregates (g : Gateway) (now : Z) :
  NoDup (JsMap.keys (services g)) →
  let all_healthy :=
    ∀ key service, JsMap.get key (services g) = Some service →
                   status (deref (store g) service) = "healthy" in
  ∃ overall report total healthy,
    payload (healthRoute g now)
      = HealthReport overall "1.0.0" now report total healthy ∧
    (statusCode (healthRoute g now) = 200 ∧ overall = "healthy" ↔ all_healthy) ∧
    (statusCode (healthRoute g now) = 503 ∧ overall = "degraded" ↔ ¬ all_healthy) ∧
    Object_keys report = JsMap.keys (services g) ∧
    ∀ key service, JsMap.get key (services g) = Some service →
      prop_get key report
      = Some {| he_name := name (deref (store g) service);
                he_status := status (deref (store g) service);
                he_lastHealthCheck := lastHealthCheck (deref (store g) service);
                he_responseTime := responseTime (deref (store g) service) |}.
Proof.
  intros Hnd all_healthy.
  assert (overallHealth g = true ↔ all_healthy) as Hall.
  { rewrite overallHealth_true. unfold all_healthy. split.
    - intros H key service Hget. apply H.
      apply (proj2 (JsMap_get_values _ _ Hnd)). eauto.
    - intros H r Hr.
      apply (proj1 (JsMap_get_values _ _ Hnd)) in Hr as [key Hget]. eauto. }
  unfold healthRoute. simpl. do 4 eexists. split; [reflexivity|].
  split; [|split; [|split]].
  - destruct (overallHealth g) eqn:E.
    + split; [intros _; by apply Hall | done].
    + split; [by intros [? _] | intros H; apply Hall in H; congruence].
  - destruct (overallHealth g) eqn:E.
    + split; [by intros [? _] | intros H; destruct H; by apply Hall].
    + split; [intros _ H; apply Hall in H; congruence | done].
  - rewrite collect_keys. by rewrite as_object_nodup.
  - intros key service Hget. rewrite collect_get, as_object_nodup by done.
    unfold JsMap.get in Hget. by rewrite Hget.
Qed.

(** C7. For one and the same registry state, [GET /services] and
    [GET /health] list the same service keys, and report the same status
    under each key. *)
Theorem services_health_consistent (g : Gateway) (t1 t2 : Z) :
  ∃ data report,
    (∃ ok total healthy unhealthy unknown,
       payload (servicesRoute g t1)
       = ServicesReport ok data total healthy unhealthy unknown t1) ∧
    (∃ overall total healthy,
       payload (healthRoute g t2)
       = HealthReport overall "1.0.0" t2 report total healthy) ∧
    Object_keys data = Object_keys report ∧
    ∀ key, se_status <$> prop_get key data = he_status <$> prop_get key report.
Proof.
  exists (collect service_entry g), (collect health_entry g).
  split; [by repeat eexists|]. split; [by repeat eexists|]. split.
  - by rewrite !collect_keys.
  - intros key. rewrite !collect_get.
    by destruct (prop_get key (as_object (services g))).
Qed.

(** ** The three writers, each as a single assignment *)

Lemma probe_failed_assign r now h :
  probe_failed r now h = assign r (mark_failed now) h.
Proof. unfold probe_failed. by rewrite !assign_assign. Qed.

Lemma checkServiceHealth_resume_assign p res now h :
  checkServiceHealth_resume p res now h
  = match res with
    | AxiosResponse st =>
        if st <? 500
        then assign (probe_service p) (mark_probed st (now - probe_start p) now) h
        else assign (probe_service p) (mark_failed now) h
    | AxiosFailure _ => assign (probe_service p) (mark_failed now) h
    end.
Proof.
  unfold checkServiceHealth_resume, validateStatus.
  destruct res as [st|?]; [destruct (st <? 500)|];
    rewrite ?probe_failed_assign, ?assign_assign; done.
Qed.

Lemma onError_store key r req now h :
  (onError key r req now h).1 = assign r (mark_seen "unhealthy" now) h.
Proof. unfold onError. simpl. by rewrite assign_assign. Qed.

Lemma onProxyRes_store key r proxyRes req now h :
  (onProxyRes key r proxyRes req now h).1
  = if pres_statusCode proxyRes <? 500
    then assign r (mark_seen "healthy" now) h else h.
Proof.
  unfold onProxyRes. simpl.
  destruct (pres_statusCode proxyRes <? 500); simpl; [|done].
  by rewrite assign_assign.
Qed.

Lemma proxy_settle_store p b now h :
  (proxy_settle p b now h).1
  = match b with
    | Answered proxyRes =>
        if pres_statusCode proxyRes <? 500
        then assign (px_service p) (mark_seen "healthy" now) h else h
    | Failed _ => assign (px_service p) (mark_seen "unhealthy" now) h
    end.
Proof.
  destruct b as [proxyRes|err]; unfold proxy_settle.
  - rewrite <-onProxyRes_store with (key := px_serviceKey p) (req := px_req p).
    by destruct (onProxyRes _ _ _ _ _ _).
  - apply onError_store.
Qed.

(** ** What a turn of the event loop can change *)

Lemma step_gateway w e w' out :
  step w e = Some (w', out) →
  app (gw w') = app (gw w) ∧ services (gw w') = services (gw w) ∧
  store_step (store (gw w)) (store (gw w')).
Proof.
  destruct e as [d|uuid req|i b|i|i res|]; simpl.
  - destruct (0 <=? d); intros [= <- <-]; simpl; eauto using store_same.
  - destruct (dispatch _ _ _ _ _); intros [= <- <-]; simpl; eauto using store_same.
  - destruct (proxying w !! i) as [p|]; simpl; [|done].
    pose proof (proxy_settle_store p b (clock w) (store (gw w))) as Hs.
    destruct (proxy_settle _ _ _ _) as [h res]. simpl in Hs. subst h.
    intros [= <- <-]; simpl. split; [done|]. split; [done|].
    destruct b as [proxyRes|err]; [destruct (_ <? 500)|];
      eauto 10 using store_same, store_marked.
  - destruct (proxying w !! i); simpl; [|done].
    intros [= <- <-]; simpl; eauto using store_same.
  - destruct (probes w !! i) as [p|]; simpl; [|done].
    intros [= <- <-]; simpl. split; [done|]. split; [done|].
    rewrite checkServiceHealth_resume_assign.
    destruct res as [st|?]; [destruct (_ <? 500)|];
      eauto 10 using store_same, store_marked.
  - destruct (timer_due w <=? clock w); intros [= <- <-]; simpl;
      eauto using store_same.
Qed.

(** ** Well-formed worlds *)

Lemma serviceDiscovery_matches l uuid now req :
  layer_matches l (serviceDiscovery uuid now req) = layer_matches l req.
Proof. done. Qed.

(** A forwarded request comes out of a proxy layer that matched. *)
Lemma dispatch_Forwarded stack g uuid now req p :
  dispatch stack g uuid now req = Forwarded p →
  ∃ l target rw req',
    l ∈ stack ∧ layer_matches l req = true ∧
    handler l = ServiceProxy (px_serviceKey p) (px_service p) target rw ∧
    (req' = req ∨ req' = serviceDiscovery uuid now req) ∧
    proxy_forward (px_serviceKey p) (px_service p) target rw req' = Some p.
Proof.
  revert req. induction stack as [|l stack IH]; intros req; simpl; [done|].
  destruct (layer_matches l req) eqn:Hl.
  - destruct (handler l) as [| | | |key r target rw|] eqn:Hh; try done.
    + intros (l' & t & rw & req' & Hin & Hm & Hh' & Hreq & Hp)%IH.
      exists l', t, rw, req'. rewrite serviceDiscovery_matches in Hm.
      split; [by apply list_elem_of_further|]. split; [done|]. split; [done|].
      split; [|done]. destruct Hreq as [->| ->]; auto.
    + destruct (proxy_forward key r target rw req) as [p'|] eqn:Hp; [|done].
      intros [= ->]. exists l, target, rw, req.
      assert (px_serviceKey p = key ∧ px_service p = r) as [-> ->].
      { unfold proxy_forward in Hp. destruct (onProxyReq _ _); [|done].
        by injection Hp as <-. }
      split; [apply list_elem_of_here|]. eauto.
  - intros (l' & t & rw & req' & Hin & Hrest)%IH.
    exists l', t, rw, req'. split; [by apply list_elem_of_further|done].
Qed.

Lemma probe_pass_service now g p :
  p ∈ probe_pass now g →
  ∃ key, key ∈ JsMap.keys (services g) ∧
         JsMap.get key (services g) = Some (probe_service p) ∧
         probe_start p = now.
Proof.
  unfold probe_pass. rewrite list_elem_of_omap. intros (key & Hin & Hp).
  exists key. split; [done|]. unfold checkServiceHealth in Hp.
  destruct (JsMap.get key (services g)) as [r|]; [|done].
  by injection Hp as <-.
Qed.

Lemma store_step_length h h' : store_step h h' → length h' = length h.
Proof. destruct 1; [done|apply length_assign]. Qed.

Lemma step_ok w e w' out : world_ok w → step w e = Some (w', out) → world_ok w'.
Proof.
  intros [Hk Hr Hl Hx Hp] Hstep.
  destruct (step_gateway _ _ _ _ Hstep) as (Happ & Hsvc & Hst%store_step_length).
  assert (∀ p, p ∈ proxying w' →
            JsMap.get (px_serviceKey p) (services (gw w)) = Some (px_service p))
    as Hx'.
  { destruct e as [d|uuid req|i b|i|i res|]; simpl in Hstep.
    - destruct (0 <=? d); by simplify_eq/=.
    - destruct (dispatch _ _ _ _ _) as [| p0 | |] eqn:Hd;
        simplify_eq/=; try done.
      simpl. intros p [Hin| ->%list_elem_of_singleton]%elem_of_app; [auto|].
      apply dispatch_Forwarded in Hd as (l & t & rw & _ & Hin & _ & Hh & _).
      eauto.
    - destruct (proxying w !! i) as [p0|]; simpl in Hstep; [|done].
      destruct (proxy_settle _ _ _ _). simplify_eq/=.
      eauto using list_elem_of_delete_inv.
    - destruct (proxying w !! i) as [p0|]; simpl in Hstep; [|done].
      simplify_eq/=. eauto using list_elem_of_delete_inv.
    - destruct (probes w !! i) as [p0|]; simpl in Hstep; [|done].
      by simplify_eq/=.
    - destruct (timer_due w <=? clock w); by simplify_eq/=. }
  assert (∀ p, p ∈ probes w' →
            ∃ key, JsMap.get key (services (gw w)) = Some (probe_service p))
    as Hp'.
  { destruct e as [d|uuid req|i b|i|i res|]; simpl in Hstep.
    - destruct (0 <=? d); by simplify_eq/=.
    - destruct (dispatch _ _ _ _ _); by simplify_eq/=.
    - destruct (proxying w !! i) as [p0|]; simpl in Hstep; [|done].
      destruct (proxy_settle _ _ _ _). by simplify_eq/=.
    - destruct (proxying w !! i) as [p0|]; simpl in Hstep; [|done].
      by simplify_eq/=.
    - destruct (probes w !! i) as [p0|]; simpl in Hstep; [|done].
      simplify_eq/=. eauto using list_elem_of_delete_inv.
    - destruct (timer_due w <=? clock w); simplify_eq/=.
      simpl. intros p [Hin|Hin]%elem_of_app; [auto|].
      apply probe_pass_service in Hin as (key & _ & Hget & _). eauto. }
  split; rewrite ?Happ, ?Hsvc, ?Hst; auto.
Qed.

Lemma exec_invariant (P : World → Prop) :
  (∀ w e w' out, P w → step w e = Some (w', out) → P w') →
  ∀ evs w w', P w → exec evs w = Some w' → P w'.
Proof.
  intros Hstep evs. induction evs as [|e evs IH]; intros w w' HP; simpl.
  - by intros [= <-].
  - destruct (step w e) as [[w1 out]|] eqn:He; simpl; [|done].
    apply IH. eauto.
Qed.

Lemma boot_booted : boot = Some booted.
Proof. reflexivity. Qed.

Lemma construct_inv t0 w0 :
  construct t0 = Some w0 → w0 = startHealthMonitoring t0 booted.
Proof. unfold construct. rewrite boot_booted. simpl. by intros [= <-]. Qed.

Lemma booted_get key r :
  JsMap.get key (services booted) = Some r →
  (key = "user-service" ∧ r = 0%nat) ∨ (key = "product-service" ∧ r = 1%nat) ∨
  (key = "order-service" ∧ r = 2%nat).
Proof.
  unfold JsMap.get. simpl.
  destruct (String.eqb_spec key "user-service") as [->|_];
    [intros [= <-]; auto|].
  destruct (String.eqb_spec key "product-service") as [->|_];
    [intros [= <-]; auto|].
  destruct (String.eqb_spec key "order-service") as [->|_];
    [intros [= <-]; auto|].
  done.
Qed.

Lemma construct_ok t0 w0 : construct t0 = Some w0 → world_ok w0.
Proof.
  intros ->%construct_inv. split; simpl.
  - unfold JsMap.keys. simpl. compute_done.
  - intros key r Hget. apply booted_get in Hget. lia.
  - intros l key r target rw Hin Hh.
    repeat (apply elem_of_cons in Hin as [->|Hin]; [by simplify_eq/= |]).
    by apply elem_of_nil in Hin.
  - by intros p ?%elem_of_nil.
  - intros p (key & _ & Hget & _)%probe_pass_service. by exists key.
Qed.

Lemma reachable_ok w : reachable w → world_ok w.
Proof.
  intros (t0 & evs & w0 & Hc & He).
  eapply exec_invariant; [apply step_ok|by eapply construct_ok|done].
Qed.

(** ** Settling a forwarded request *)

Lemma proxy_settle_Answered p proxyRes now h :
  (proxy_settle p (Answered proxyRes) now h).2
  = relay (px_serviceKey p) (px_req p) proxyRes.
Proof.
  unfold relay. simpl. unfold onProxyRes. simpl.
  by destruct (pres_statusCode proxyRes <? 500).
Qed.

Lemma step_Settle w i p b :
  proxying w !! i = Some p →
  step w (Settle i b)
  = Some ({| gw := with_store (proxy_settle p b (clock w) (store (gw w))).1 (gw w);
             clock := clock w; probes := probes w;
             proxying := delete i (proxying w); timer_due := timer_due w |},
          Some (proxy_settle p b (clock w) (store (gw w))).2).
Proof. intros Hp. simpl. rewrite Hp. simpl. by destruct (proxy_settle _ _ _ _). Qed.

Lemma step_ProbeDone w i p res :
  probes w !! i = Some p →
  step w (ProbeDone i res)
  = Some ({| gw := with_store
                     (checkServiceHealth_resume p res (clock w) (store (gw w)))
                     (gw w);
             clock := clock w; probes := delete i (probes w);
             proxying := proxying w; timer_due := timer_due w |}, None).
Proof. intros Hp. simpl. by rewrite Hp. Qed.

Lemma descriptor_get key r (g : Gateway) :
  JsMap.get key (services g) = Some r →
  descriptor key g = Some (deref (store g) r).
Proof. unfold descriptor. by intros ->. Qed.

(** C1, as the code has it. For a forwarded request of a running gateway:
    a backend response with status 500 or above is relayed as it is (status
    and body, plus the two attribution headers [X-Gateway-Service] and
    [X-Gateway-Request-ID]) and no descriptor changes; when the exchange
    with the backend breaks with a transport error, the service is marked
    [unhealthy] and the caller gets the synthesized 503 whose [service]
    field is the service key; when the backend stays silent until the
    caller's socket is destroyed, nothing is sent and no descriptor
    changes; a backend 200 marks the service [healthy] and its body is
    relayed unchanged. *)
Theorem proxied_outcomes (w : World) (i : nat) (p : Proxying) :
  reachable w → proxying w !! i = Some p →
  JsMap.get (px_serviceKey p) (services (gw w)) = Some (px_service p) ∧
  (∀ proxyRes, 500 ≤ pres_statusCode proxyRes →
     ∃ w' res,
       step w (Settle i (Answered proxyRes)) = Some (w', Some res) ∧
       gw w' = gw w ∧
       statusCode res = pres_statusCode proxyRes ∧
       payload res = Relayed (pres_body proxyRes) ∧
       prop_get "X-Gateway-Service" (headers res) = Some (Some (px_serviceKey p)) ∧
       prop_get "X-Gateway-Request-ID" (headers res)
       = Some (requestId (px_req p))) ∧
  (∀ err,
     ∃ w' res message,
       step w (Settle i (Failed err)) = Some (w', Some res) ∧
       status <$> descriptor (px_serviceKey p) (gw w') = Some "unhealthy" ∧
       statusCode res = 503 ∧
       payload res
       = ServiceUnavailable "Service unavailable" message (px_serviceKey p)
           (requestId (px_req p)) (clock w) 30
           ["Try again in a few moments"; "Check service status at /services";
            "Contact support if problem persists"]) ∧
  (∃ w', step w (Aborted i) = Some (w', None) ∧ gw w' = gw w) ∧
  (∀ proxyRes, pres_statusCode proxyRes = 200 →
     ∃ w' res,
       step w (Settle i (Answered proxyRes)) = Some (w', Some res) ∧
       status <$> descriptor (px_serviceKey p) (gw w') = Some "healthy" ∧
       statusCode res = 200 ∧
       payload res = Relayed (pres_body proxyRes)).
Proof.
  intros Hok%reachable_ok Hp.
  assert (JsMap.get (px_serviceKey p) (services (gw w)) = Some (px_service p))
    as Hget by (eapply ok_proxying, list_elem_of_lookup_2; eauto).
  pose proof (ok_refs _ Hok _ _ Hget) as Hlt.
  split; [done|]. split; [|split; [|split]].
  - intros proxyRes Hst. do 2 eexists. split; [by apply step_Settle|].
    rewrite proxy_settle_store, proxy_settle_Answered.
    assert ((pres_statusCode proxyRes <? 500) = false) as -> by lia.
    split; [by destruct (gw w)|]. split; [done|]. split; [done|].
    simpl. split; [|apply prop_get_set_eq].
    rewrite prop_get_set_ne by done. apply prop_get_set_eq.
  - intros err. do 3 eexists. split; [by apply step_Settle|].
    rewrite proxy_settle_store. split; [|done].
    erewrite descriptor_get by done. simpl.
    by rewrite deref_assign_eq.
  - eexists. simpl. rewrite Hp. simpl. split; [reflexivity|done].
  - intros proxyRes Hst. do 2 eexists. split; [by apply step_Settle|].
    rewrite proxy_settle_store, proxy_settle_Answered, Hst. simpl.
    split; [|done]. erewrite descriptor_get by done. simpl.
    by rewrite deref_assign_eq.
Qed.

(** C1, as stated, fails. A new gateway forwards [GET /api/users]; the
    backend answers 500. The user service's status is still [unknown], not
    [unhealthy], and the caller receives the backend's 500 and body, not a
    synthesized 503. *)
Lemma backend_500_relayed_raw :
  construct 0 = Some started ∧
  exec forwarding started = Some (world_after forwarding) ∧
  step (world_after forwarding) (Settle 0 (Answered boom))
  = Some (world_after (forwarding ++ [Settle 0 (Answered boom)]),
          Some {| statusCode := 500;
                  headers := [("X-Gateway-Service", Some "user-service");
                              ("X-Gateway-Request-ID", Some "req-1")];
                  payload := Relayed "boom" |}) ∧
  status <$> descriptor "user-service"
               (gw (world_after (forwarding ++ [Settle 0 (Answered boom)])))
  = Some "unknown" ∧
  status <$> descriptor "user-service"
               (gw (world_after (forwarding ++ [Settle 0 (Answered boom)])))
  ≠ Some "unhealthy".
Proof. vm_compute. repeat split; done. Qed.

(** ** Probe completion *)

(** C3, as the code has it. When a probe of a running gateway ends without
    a response (timeout or transport failure), the probed service becomes
    [unhealthy] and its [responseTime] becomes ["timeout"], whatever they
    were. When a forwarded request ends in a transport error, the service
    becomes [unhealthy] and [lastHealthCheck] is set, and [responseTime]
    keeps its value. *)
Theorem timeout_observations (w : World) :
  reachable w →
  (∀ i p message,
     probes w !! i = Some p →
     ∃ w',
       step w (ProbeDone i (AxiosFailure message)) = Some (w', None) ∧
       (∃ key, JsMap.get key (services (gw w')) = Some (probe_service p)) ∧
       status (deref (store (gw w')) (probe_service p)) = "unhealthy" ∧
       responseTime (deref (store (gw w')) (probe_service p)) = Some "timeout") ∧
  (∀ i p err,
     proxying w !! i = Some p →
     ∃ w' res,
       step w (Settle i (Failed err)) = Some (w', Some res) ∧
       JsMap.get (px_serviceKey p) (services (gw w')) = Some (px_service p) ∧
       status (deref (store (gw w')) (px_service p)) = "unhealthy" ∧
       lastHealthCheck (deref (store (gw w')) (px_service p)) = Some (clock w) ∧
       responseTime (deref (store (gw w')) (px_service p))
       = responseTime (deref (store (gw w)) (px_service p))).
Proof.
  intros Hok%reachable_ok. split.
  - intros i p message Hp.
    destruct (ok_probes _ Hok p) as [key Hget];
      [by eapply list_elem_of_lookup_2|].
    pose proof (ok_refs _ Hok _ _ Hget) as Hlt.
    eexists. split; [by apply step_ProbeDone|]. simpl.
    rewrite probe_failed_assign, deref_assign_eq by done. eauto.
  - intros i p err Hp.
    assert (JsMap.get (px_serviceKey p) (services (gw w)) = Some (px_service p))
      as Hget by (eapply ok_proxying, list_elem_of_lookup_2; eauto).
    pose proof (ok_refs _ Hok _ _ Hget) as Hlt.
    do 2 eexists. split; [by apply step_Settle|].
    rewrite proxy_settle_store. simpl.
    by rewrite deref_assign_eq.
Qed.

(** C3, as stated, fails on the proxy path. A probe of the user service
    took 12 ms and succeeded; then a forwarded request to it gets no
    response. The status is [unhealthy], but [responseTime] is still
    ["12ms"], not ["timeout"]. *)
Lemma proxy_failure_keeps_responseTime :
  construct 0 = Some started ∧
  exec (probed ++ forwarding) started = Some (world_after (probed ++ forwarding)) ∧
  (∃ res,
     step (world_after (probed ++ forwarding)) (Settle 0 (Failed "ETIMEDOUT"))
     = Some (world_after (probed ++ forwarding ++ [Settle 0 (Failed "ETIMEDOUT")]),
             Some res)) ∧
  status <$> descriptor "user-service"
               (gw (world_after
                      (probed ++ forwarding ++ [Settle 0 (Failed "ETIMEDOUT")])))
  = Some "unhealthy" ∧
  responseTime <$> descriptor "user-service"
                     (gw (world_after
                            (probed ++ forwarding ++ [Settle 0 (Failed "ETIMEDOUT")])))
  = Some (Some "12ms") ∧
  responseTime <$> descriptor "user-service"
                     (gw (world_after
                            (probed ++ forwarding ++ [Settle 0 (Failed "ETIMEDOUT")])))
  ≠ Some (Some "timeout").
Proof.
  split; [by vm_compute|]. split; [by vm_compute|]. split.
  - eexists. vm_compute. reflexivity.
  - vm_compute. repeat split; done.
Qed.

(** C4, as the code has it. A probe of a running gateway that completes
    with status 200 marks the service [healthy] with the elapsed time; any
    other status below 500 marks it [unhealthy] with the elapsed time; a
    status of 500 or above marks it [unhealthy] with ["timeout"]. *)
Theorem probe_outcomes (w : World) (i : nat) (p : Probe) (st : Z) :
  reachable w → probes w !! i = Some p →
  ∃ w',
    step w (ProbeDone i (AxiosResponse st)) = Some (w', None) ∧
    let d := deref (store (gw w')) (probe_service p) in
    let elapsed := pretty (clock w - probe_start p) +:+ "ms" in
    (∃ key, JsMap.get key (services (gw w')) = Some (probe_service p)) ∧
    (st = 200 → status d = "healthy" ∧ responseTime d = Some elapsed) ∧
    (st ≠ 200 → st < 500 →
       status d = "unhealthy" ∧ responseTime d = Some elapsed) ∧
    (500 ≤ st → status d = "unhealthy" ∧ responseTime d = Some "timeout").
Proof.
  intros Hok%reachable_ok Hp.
  destruct (ok_probes _ Hok p) as [key Hget];
    [by eapply list_elem_of_lookup_2|].
  pose proof (ok_refs _ Hok _ _ Hget) as Hlt.
  eexists. split; [by apply step_ProbeDone|].
  intros d elapsed. subst d elapsed. cbn [gw store services with_store].
  rewrite checkServiceHealth_resume_assign.
  split; [eauto|]. split; [|split].
  - intros ->. simpl. by rewrite deref_assign_eq.
  - intros Hne Hlt5. assert ((st <? 500) = true) as -> by lia.
    rewrite deref_assign_eq by done. simpl.
    by assert ((st =? 200) = false) as -> by lia.
  - intros Hge. assert ((st <? 500) = false) as -> by lia.
    by rewrite deref_assign_eq.
Qed.

(** C4, as stated, fails. A probe that completes with 204, a 2xx status,
    leaves the service [unhealthy]; one that completes with 503 records
    ["timeout"], not the elapsed time. *)
Lemma probe_204_unhealthy :
  construct 0 = Some started ∧
  exec [Elapse 7; ProbeDone 0 (AxiosResponse 204)] started
  = Some (world_after [Elapse 7; ProbeDone 0 (AxiosResponse 204)]) ∧
  status <$> descriptor "user-service"
               (gw (world_after [Elapse 7; ProbeDone 0 (AxiosResponse 204)]))
  = Some "unhealthy" ∧
  status <$> descriptor "user-service"
               (gw (world_after [Elapse 7; ProbeDone 0 (AxiosResponse 204)]))
  ≠ Some "healthy" ∧
  exec [Elapse 7; ProbeDone 0 (AxiosResponse 503)] started
  = Some (world_after [Elapse 7; ProbeDone 0 (AxiosResponse 503)]) ∧
  responseTime <$> descriptor "user-service"
                     (gw (world_after [Elapse 7; ProbeDone 0 (AxiosResponse 503)]))
  = Some (Some "timeout") ∧
  responseTime <$> descriptor "user-service"
                     (gw (world_after [Elapse 7; ProbeDone 0 (AxiosResponse 503)]))
  ≠ Some (Some "7ms").
Proof. vm_compute. repeat split; done. Qed.

(** ** Frame and invariant *)

Lemma descriptor_inv key (g : Gateway) d :
  descriptor key g = Some d →
  ∃ r, JsMap.get key (services g) = Some r ∧ d = deref (store g) r.
Proof.
  unfold descriptor. destruct (JsMap.get key (services g)) as [r|]; [|done].
  intros [= <-]. eauto.
Qed.

(** C10. In a running gateway, a turn of the event loop that is not a probe
    completion leaves every descriptor's [responseTime] as it was, and so
    the latency that [/health] and [/services] report; a proxy observation
    (a backend response below 500, or a transport error) does set [status]
    and [lastHealthCheck]. *)
Theorem responseTime_written_by_prober_only
    (w : World) (e : Event) (w' : World) (out : option Response) :
  reachable w → step w e = Some (w', out) →
  ((∀ i res, e ≠ ProbeDone i res) →
   (∀ r, responseTime (deref (store (gw w')) r)
         = responseTime (deref (store (gw w)) r)) ∧
   (∀ key, he_responseTime <$> prop_get key (collect health_entry (gw w'))
           = he_responseTime <$> prop_get key (collect health_entry (gw w))) ∧
   (∀ key, se_responseTime <$> prop_get key (collect service_entry (gw w'))
           = se_responseTime <$> prop_get key (collect service_entry (gw w)))) ∧
  (∀ i p b,
     e = Settle i b → proxying w !! i = Some p →
     let d' := deref (store (gw w')) (px_service p) in
     match b with
     | Failed _ =>
         status d' = "unhealthy" ∧ lastHealthCheck d' = Some (clock w)
     | Answered proxyRes =>
         pres_statusCode proxyRes < 500 →
         status d' = "healthy" ∧ lastHealthCheck d' = Some (clock w)
     end).
Proof.
  intros Hok%reachable_ok Hstep.
  destruct (step_gateway _ _ _ _ Hstep) as (_ & Hsvc & _).
  split.
  - intros Hnp.
    assert (∀ r, responseTime (deref (store (gw w')) r)
                 = responseTime (deref (store (gw w)) r)) as Hframe.
    { destruct e as [d|uuid req|i b|i|i res|]; simpl in Hstep.
      - destruct (0 <=? d); by simplify_eq/=.
      - destruct (dispatch _ _ _ _ _); by simplify_eq/=.
      - destruct (proxying w !! i) as [p|]; simpl in Hstep; [|done].
        pose proof (proxy_settle_store p b (clock w) (store (gw w))) as Hs.
        destruct (proxy_settle _ _ _ _) as [h res]. simplify_eq/=.
        intros r. destruct b as [proxyRes|err]; [destruct (_ <? 500)|];
          try done; by apply deref_assign_frame.
      - destruct (proxying w !! i); by simplify_eq/=.
      - by destruct (Hnp i res).
      - destruct (timer_due w <=? clock w); by simplify_eq/=. }
    split; [done|].
    split; intros key; rewrite !collect_get, Hsvc;
      destruct (prop_get key _); simpl; by rewrite ?Hframe.
  - intros i p b -> Hp. rewrite step_Settle with (p := p) in Hstep by done.
    assert (JsMap.get (px_serviceKey p) (services (gw w)) = Some (px_service p))
      as Hget by (eapply ok_proxying, list_elem_of_lookup_2; eauto).
    pose proof (ok_refs _ Hok _ _ Hget) as Hlt.
    simplify_eq/=. rewrite proxy_settle_store.
    destruct b as [proxyRes|err].
    + intros Hst. assert ((pres_statusCode proxyRes <? 500) = true) as -> by lia.
      by rewrite deref_assign_eq.
    + by rewrite deref_assign_eq.
Qed.

Lemma store_step_status h h' r :
  store_step h h' →
  status (deref h' r) = status (deref h r) ∨
  status (deref h' r) = "healthy" ∨ status (deref h' r) = "unhealthy".
Proof.
  destruct 1 as [|r0 f Hf]; [by left|].
  rewrite deref_assign. case_decide; [|by left]. right.
  destruct Hf as [(v & now & Hv & ->)|[(now & ->)|(st & el & now & ->)]]; simpl.
  - destruct Hv as [-> | ->]; auto.
  - auto.
  - destruct (st =? 200); auto.
Qed.

Lemma store_step_status_ok h h' :
  store_step h h' →
  Forall (λ d, status_ok (status d)) h → Forall (λ d, status_ok (status d)) h'.
Proof.
  destruct 1 as [|r0 f Hf]; [done|]. intros Hall.
  apply Forall_alter; [done|]. intros d _ _. unfold status_ok.
  destruct Hf as [(v & now & Hv & ->)|[(now & ->)|(st & el & now & ->)]]; simpl.
  - destruct Hv as [-> | ->]; auto.
  - auto.
  - destruct (st =? 200); auto.
Qed.

(** C9. From construction on, a registered descriptor's status is one of
    [unknown], [healthy], [unhealthy]: registration sets [unknown], and a
    turn of the event loop leaves a status alone or sets it to [healthy] or
    [unhealthy]. *)
Theorem status_three_valued (t0 : Z) (evs : list Event) (w0 w : World) :
  construct t0 = Some w0 → exec evs w0 = Some w →
  (∀ key d, descriptor key (gw w0) = Some d → status d = "unknown") ∧
  (∀ key d, descriptor key (gw w) = Some d → status_ok (status d)) ∧
  (∀ e w' out key d d',
     step w e = Some (w', out) →
     descriptor key (gw w) = Some d → descriptor key (gw w') = Some d' →
     status d' = status d ∨ status d' = "healthy" ∨ status d' = "unhealthy").
Proof.
  intros Hc He.
  assert (world_ok w) as Hok by (apply reachable_ok; by exists t0, evs, w0).
  split; [|split].
  - apply construct_inv in Hc as ->. intros key d (r & Hget & ->)%descriptor_inv.
    apply booted_get in Hget as [[_ ->]|[[_ ->]|[_ ->]]]; done.
  - assert (Forall (λ d, status_ok (status d)) (store (gw w))) as Hall.
    { revert He.
      apply (exec_invariant
               (λ w, Forall (λ d, status_ok (status d)) (store (gw w)))).
      - intros w1 e w2 out HP (_ & _ & Hst)%step_gateway.
        by eapply store_step_status_ok.
      - apply construct_inv in Hc as ->. simpl.
        repeat constructor; by left. }
    intros key d (r & Hget & ->)%descriptor_inv.
    rewrite Forall_forall in Hall. apply Hall.
    apply list_elem_of_lookup_total_2. by eapply ok_refs.
  - intros e w' out key d d' (_ & Hsvc & Hst)%step_gateway
      (r & Hget & ->)%descriptor_inv (r' & Hget' & ->)%descriptor_inv.
    rewrite Hsvc, Hget in Hget'. injection Hget' as <-.
    by apply store_step_status.
Qed.

(** ** Routing *)

Lemma routed_serviceDiscovery stack uuid now req :
  routed stack (serviceDiscovery uuid now req) = routed stack req.
Proof. done. Qed.

Lemma use_matches_star path : use_matches "*" path = true.
Proof. reflexivity. Qed.

(** A request no route takes ends in the fallback, if the stack has one
    that matches; it may have been tagged on the way. *)
Lemma dispatch_unrouted stack g uuid now req :
  routed stack req = false →
  (∃ l, l ∈ stack ∧ handler l = Fallback ∧ layer_matches l req = true) →
  ∃ req',
    (req' = req ∨ req' = serviceDiscovery uuid now req) ∧
    dispatch stack g uuid now req = Sent (fallbackRoute g req' now).
Proof.
  revert req. induction stack as [|l stack IH]; intros req Hr (lf & Hin & Hf & Hm).
  - by apply elem_of_nil in Hin.
  - simpl in Hr. apply orb_false_iff in Hr as [Hl Hr]. simpl.
    destruct (layer_matches l req) eqn:Hlm.
    + destruct (handler l) eqn:Hh; try done.
      * destruct (IH (serviceDiscovery uuid now req)) as (req' & Hreq & Hd).
        -- done.
        -- apply elem_of_cons in Hin as [->|Hin]; [congruence|].
           exists lf. by rewrite serviceDiscovery_matches.
        -- exists req'. split; [|done]. destruct Hreq as [->| ->]; auto.
      * eauto.
    + apply elem_of_cons in Hin as [->|Hin]; [congruence|]. eauto.
Qed.

Lemma reachable_static w :
  reachable w →
  app (gw w) = app booted ∧ services (gw w) = services booted.
Proof.
  intros (t0 & evs & w0 & Hc & He). revert He.
  apply (exec_invariant
           (λ w, app (gw w) = app booted ∧ services (gw w) = services booted)).
  - intros w1 e w2 out [Ha Hs] (-> & -> & _)%step_gateway. done.
  - by apply construct_inv in Hc as ->.
Qed.

(** Settles a matching question about a path known to match a literal
    route: the path is the route, with or without a trailing slash. *)
Ltac at_route H :=
  unfold route_matches in H; apply orb_true_iff in H as [H|H];
  apply String.eqb_eq in H;
  unfold use_matches, route_matches; rewrite H; vm_compute; reflexivity.

(** The two registry reports are what a GET of [/health] and of
    [/services] is answered with, and answering changes nothing. *)
Lemma introspection_dispatch w uuid req :
  reachable w → method req = "GET" →
  (route_matches "/health" (pathname (originalUrl req)) = true →
   step w (Arrive uuid req) = Some (w, Some (healthRoute (gw w) (clock w)))) ∧
  (route_matches "/services" (pathname (originalUrl req)) = true →
   step w (Arrive uuid req) = Some (w, Some (servicesRoute (gw w) (clock w)))).
Proof.
  intros [Happ _]%reachable_static Hget.
  split; intros Hm; cbn [step]; rewrite Happ; unfold booted;
    cbn [app dispatch]; unfold layer_matches;
    cbn [verb mountpath handler]; rewrite Hget.
  - assert (use_matches "/api/*" (pathname (originalUrl req)) = false) as ->
      by at_route Hm.
    by rewrite Hm.
  - assert (use_matches "/api/*" (pathname (originalUrl req)) = false) as ->
      by at_route Hm.
    assert (route_matches "/health" (pathname (originalUrl req)) = false) as ->
      by at_route Hm.
    assert (route_matches "/" (pathname (originalUrl req)) = false) as ->
      by at_route Hm.
    by rewrite Hm.
Qed.

(** On the gateway's own stack, [routed] is a GET or HEAD of one of the
    three introspection routes, or a path under one of the three mounts. *)
Lemma routed_booted req :
  routed (app booted) req
  = let path := pathname (originalUrl req) in
    let read := String.eqb (method req) "GET" || String.eqb (method req) "HEAD" in
    route_matches "/health" path && read
    || (route_matches "/" path && read
        || (route_matches "/services" path && read
            || (use_matches "/api/users" path
                || (use_matches "/api/products" path
                    || (use_matches "/api/orders" path || false))))).
Proof. reflexivity. Qed.

(** C6. A request that none of the gateway's routes or proxy mounts takes
    is answered 404 with [availableServices] listing every registered key,
    and the gateway, registry included, is exactly as it was. *)
Theorem unrouted_request_404 (w : World) (uuid : string) (req : Request) :
  reachable w → routed (app (gw w)) req = false →
  ∃ res message rid,
    step w (Arrive uuid req) = Some (w, Some res) ∧
    statusCode res = 404 ∧
    payload res
    = RouteNotFound "Route not found" message (JsMap.keys (services (gw w)))
        ["Check if the target service is running";
         "Verify the route path is correct";
         "Check service registration in gateway"]
        rid (clock w) ∧
    ∀ key service,
      JsMap.get key (services (gw w)) = Some service →
      key ∈ JsMap.keys (services (gw w)).
Proof.
  intros Hreach Hr. destruct (reachable_static _ Hreach) as [Happ Hsvc].
  destruct (dispatch_unrouted (app (gw w)) (gw w) uuid (clock w) req Hr)
    as (req' & _ & Hd).
  { exists {| verb := Use; mountpath := "*"; handler := Fallback |}.
    rewrite Happ. split; [|split; [done|apply use_matches_star]].
    do 7 apply list_elem_of_further. apply list_elem_of_here. }
  do 3 eexists. split; [simpl; by rewrite Hd|].
  split; [done|]. split; [done|].
  intros key service Hget%prop_get_Some.
  apply list_elem_of_fmap. by exists (key, service).
Qed.

(** *** Paths under a mount *)

Lemma starts_with_inv s q : starts_with s q = true → ∃ rest, q = s +:+ rest.
Proof.
  revert q. induction s as [|c s IH]; intros q; simpl.
  - by exists q.
  - destruct q as [|c' q]; [done|].
    destruct (Ascii.eqb_spec c c') as [<-|]; [|done]. simpl.
    intros [rest ->]%IH. by exists rest.
Qed.

Lemma use_matches_literal mount path :
  strip_star mount = None →
  use_matches mount path
  = String.eqb (lower path) (lower (strip_slash mount))
    || starts_with (lower (strip_slash mount) +:+ "/") (lower path).
Proof. unfold use_matches. by intros ->. Qed.

(** Settles a matching question about a path known to lie under a literal
    mount: the path is the mount, or the mount, a slash and a rest. *)
Ltac under_mount H :=
  rewrite use_matches_literal in H by reflexivity;
  apply orb_true_iff in H as [H|H];
  [apply String.eqb_eq in H | apply starts_with_inv in H as [? H]];
  unfold use_matches, route_matches; rewrite H; vm_compute; reflexivity.

Lemma under_users path :
  use_matches "/api/users" path = true →
  use_matches "/api/*" path = true ∧ route_matches "/health" path = false ∧
  route_matches "/" path = false ∧ route_matches "/services" path = false.
Proof. intros H. repeat split; under_mount H. Qed.

Lemma under_products path :
  use_matches "/api/products" path = true →
  use_matches "/api/*" path = true ∧ route_matches "/health" path = false ∧
  route_matches "/" path = false ∧ route_matches "/services" path = false ∧
  use_matches "/api/users" path = false.
Proof. intros H. repeat split; under_mount H. Qed.

Lemma under_orders path :
  use_matches "/api/orders" path = true →
  use_matches "/api/*" path = true ∧ route_matches "/health" path = false ∧
  route_matches "/" path = false ∧ route_matches "/services" path = false ∧
  use_matches "/api/users" path = false ∧
  use_matches "/api/products" path = false.
Proof. intros H. repeat split; under_mount H. Qed.

Lemma dispatch_mounted g uuid now req mount key service target :
  (mount, key, service, target) ∈ mounts →
  use_matches mount (pathname (originalUrl req)) = true →
  dispatch (app booted) g uuid now req
  = match proxy_forward key service target (mount, mount)
            (serviceDiscovery uuid now req) with
    | Some p => Forwarded p
    | None => Threw
    end.
Proof.
  intros Hin Hm. unfold mounts in Hin.
  repeat (apply elem_of_cons in Hin as [Hin|Hin]; [simplify_eq|]);
    [| | |by apply elem_of_nil in Hin];
    unfold booted; cbn [app dispatch]; unfold layer_matches;
    cbn [verb mountpath handler method originalUrl serviceDiscovery].
  - destruct (under_users _ Hm) as (-> & -> & -> & ->). cbn [andb].
    by rewrite Hm.
  - destruct (under_products _ Hm) as (-> & -> & -> & -> & ->). cbn [andb].
    by rewrite Hm.
  - destruct (under_orders _ Hm) as (-> & -> & -> & -> & -> & ->). cbn [andb].
    by rewrite Hm.
Qed.

Lemma store_step_url h h' r :
  store_step h h' → url (deref h' r) = url (deref h r).
Proof.
  destruct 1 as [|r0 f Hf]; [done|]. apply deref_assign_frame.
  by destruct Hf as [(v & now & Hv & ->)|[(now & ->)|(st & el & now & ->)]].
Qed.

Lemma reachable_url w r :
  reachable w → url (deref (store (gw w)) r) = url (deref (store booted) r).
Proof.
  intros (t0 & evs & w0 & Hc & He). revert He.
  apply (exec_invariant
           (λ w, url (deref (store (gw w)) r) = url (deref (store booted) r))).
  - intros w1 e w2 out <- (_ & _ & Hst)%step_gateway. by apply store_step_url.
  - by apply construct_inv in Hc as ->.
Qed.

(** What the gateway does do for routes: a request whose path lies under
    one of the three mounted prefixes is forwarded to the address of the
    service mounted there, with the four gateway headers, and the relayed
    response carries the two attribution headers. *)
Lemma mounted_prefix_proxied w uuid req mount key service target :
  reachable w → (mount, key, service, target) ∈ mounts →
  use_matches mount (pathname (originalUrl req)) = true →
  ∃ p,
    step w (Arrive uuid req)
    = Some ({| gw := gw w; clock := clock w; probes := probes w;
               proxying := proxying w ++ [p]; timer_due := timer_due w |}, None) ∧
    px_serviceKey p = key ∧
    JsMap.get key (services (gw w)) = Some (px_service p) ∧
    preq_target (px_proxyReq p) = url (deref (store (gw w)) (px_service p)) ∧
    prop_get "x-gateway-request-id" (preq_headers (px_proxyReq p)) = Some uuid ∧
    prop_get "x-gateway-timestamp" (preq_headers (px_proxyReq p))
    = Some (toISOString (clock w)) ∧
    prop_get "x-gateway-version" (preq_headers (px_proxyReq p)) = Some "1.0.0" ∧
    prop_get "x-forwarded-by" (preq_headers (px_proxyReq p)) = Some "api-gateway" ∧
    ∀ proxyRes now h,
      let res := (proxy_settle p (Answered proxyRes) now h).2 in
      prop_get "X-Gateway-Service" (headers res) = Some (Some key) ∧
      prop_get "X-Gateway-Request-ID" (headers res) = Some (Some uuid).
Proof.
  intros Hreach Hin Hm. destruct (reachable_static _ Hreach) as [Happ Hsvc].
  eexists. split.
  { simpl. rewrite Happ, (dispatch_mounted _ _ _ _ _ _ _ _ Hin Hm). simpl.
    reflexivity. }
  simpl. split; [done|]. rewrite Hsvc, reachable_url by done.
  split; [|split].
  - unfold mounts in Hin.
    repeat (apply elem_of_cons in Hin as [Hin|Hin]; [by simplify_eq|]).
    by apply elem_of_nil in Hin.
  - unfold mounts in Hin.
    repeat (apply elem_of_cons in Hin as [Hin|Hin]; [by simplify_eq|]).
    by apply elem_of_nil in Hin.
  - split; [|split; [|split; [|split]]].
    + do 3 (rewrite prop_get_set_ne by done). apply prop_get_set_eq.
    + do 2 (rewrite prop_get_set_ne by done). apply prop_get_set_eq.
    + rewrite prop_get_set_ne by done. apply prop_get_set_eq.
    + apply prop_get_set_eq.
    + intros proxyRes now h. unfold onProxyRes. simpl.
      destruct (pres_statusCode proxyRes <? 500); simpl; split;
        try apply prop_get_set_eq;
        rewrite prop_get_set_ne by done; apply prop_get_set_eq.
Qed.

(** C5 on the code. [registerServices] lists [/api/auth] among the user
    service's routes, and [GET /] publishes that list, but no proxy is
    mounted there: a started gateway answers [GET /api/auth/login] from the
    fallback, with 404, and forwards nothing. *)
Theorem auth_route_not_proxied :
  construct 0 = Some started ∧
  routes <$> descriptor "user-service" (gw started)
  = Some ["/api/users"; "/api/auth"] ∧
  starts_with "/api/auth" (pathname "/api/auth/login") = true ∧
  step started (Arrive "req-1" (GET "/api/auth/login"))
  = Some (started,
          Some {| statusCode := 404;
                  headers := [];
                  payload :=
                    RouteNotFound "Route not found"
                      "Gateway cannot route GET /api/auth/login"
                      ["user-service"; "product-service"; "order-service"]
                      ["Check if the target service is running";
                       "Verify the route path is correct";
                       "Check service registration in gateway"]
                      (Some "req-1") 0 |}).
Proof. vm_compute. repeat split; reflexivity. Qed.

(** ** The probe schedule *)

Lemma elem_of_delete_other {A} (l : list A) i x y :
  x ∈ l → l !! i = Some y → x ≠ y → x ∈ delete i l.
Proof.
  intros [j Hj]%list_elem_of_lookup Hi Hne.
  assert (j ≠ i) as Hji by congruence.
  apply list_elem_of_lookup. destruct (decide (j < i)%nat).
  - exists j. rewrite list_lookup_delete. by case_decide.
  - exists (pred j). rewrite list_lookup_delete. case_decide; [lia|].
    by replace (S (pred j)) with j by lia.
Qed.

Lemma deref_ge (h : heap) r : (length h ≤ r)%nat → deref h r = inhabitant.
Proof.
  intros Hge. unfold deref. by rewrite list_lookup_total_alt, lookup_ge_None_2.
Qed.

(** A marking never produces [unknown]. *)
Lemma store_step_unknown h h' r :
  store_step h h' →
  status (deref h' r) = "unknown" →
  status (deref h r) = "unknown" ∧ deref h' r = deref h r.
Proof.
  destruct 1 as [|r0 f Hf]; [done|].
  rewrite deref_assign. case_decide; [|done].
  destruct Hf as [(v & now & Hv & ->)|[(now & ->)|(st & el & now & ->)]]; simpl.
  - by destruct Hv as [-> | ->].
  - done.
  - by destruct (st =? 200).
Qed.

(** A pass asks every registered service, in registry order. *)
Lemma probe_pass_full w :
  reachable w →
  probe_pass (clock w) (gw w)
  = (λ '(key, r), {| probe_service := r;
                     probe_url := health (deref (store (gw w)) r);
                     probe_start := clock w |})
      <$> JsMap.entries (services (gw w)).
Proof.
  intros [_ Hsvc]%reachable_static.
  unfold probe_pass, checkServiceHealth, JsMap.keys, JsMap.get, JsMap.entries.
  by rewrite Hsvc.
Qed.

Lemma probe_pass_booted now :
  probe_pass now booted
  = [ {| probe_service := 0; probe_url := "http://localhost:3002/health";
         probe_start := now |};
      {| probe_service := 1; probe_url := "http://localhost:3003/health";
         probe_start := now |};
      {| probe_service := 2; probe_url := "http://localhost:3004/health";
         probe_start := now |} ].
Proof. reflexivity. Qed.

Lemma step_unknown_pending t0 w e w' out :
  unknown_pending t0 w → step w e = Some (w', out) → unknown_pending t0 w'.
Proof.
  intros Hinv Hstep r Hunk.
  destruct (step_gateway _ _ _ _ Hstep) as (_ & _ & Hst).
  destruct (store_step_unknown _ _ r Hst Hunk) as [Hbefore Hsame].
  destruct (Hinv r Hbefore) as (p & Hin & Hr & Hs).
  destruct e as [d|uuid req|i b|i|i res|]; simpl in Hstep.
  - destruct (0 <=? d); simplify_eq/=. eauto.
  - destruct (dispatch _ _ _ _ _); simplify_eq/=; eauto.
  - destruct (proxying w !! i) as [p0|]; simpl in Hstep; [|done].
    destruct (proxy_settle _ _ _ _). simplify_eq/=. eauto.
  - destruct (proxying w !! i) as [p0|]; simplify_eq/=. eauto.
  - destruct (probes w !! i) as [p0|] eqn:Hp0; simpl in Hstep; [|done].
    simplify_eq/=. exists p. split; [|done].
    eapply elem_of_delete_other; [done..|]. intros <-.
    rewrite checkServiceHealth_resume_assign in Hunk.
    destruct (decide (probe_service p < length (store (gw w)))%nat).
    + destruct res as [st|?]; [destruct (st <? 500)|];
        rewrite deref_assign_eq in Hunk by done; simpl in Hunk;
        try done. by destruct (st =? 200).
    + rewrite deref_ge in Hbefore by lia. done.
  - destruct (timer_due w <=? clock w); simplify_eq/=.
    exists p. split; [|done]. apply elem_of_app. by left.
Qed.

Lemma step_clock t0 w e w' out :
  t0 ≤ clock w ∧ t0 + healthInterval ≤ timer_due w →
  step w e = Some (w', out) →
  t0 ≤ clock w' ∧ t0 + healthInterval ≤ timer_due w'.
Proof.
  intros [Hc Hd] Hstep.
  destruct e as [d|uuid req|i b|i|i res|]; simpl in Hstep.
  - destruct (0 <=? d) eqn:?; simplify_eq/=. lia.
  - destruct (dispatch _ _ _ _ _); by simplify_eq/=.
  - destruct (proxying w !! i) as [p0|]; simpl in Hstep; [|done].
    destruct (proxy_settle _ _ _ _). by simplify_eq/=.
  - destruct (proxying w !! i) as [p0|]; by simplify_eq/=.
  - destruct (probes w !! i) as [p0|]; simpl in Hstep; [|done].
    by simplify_eq/=.
  - destruct (timer_due w <=? clock w); simplify_eq/=. lia.
Qed.

(** C8. The constructor issues one probe per registered service at once,
    with the timer first due a full interval (30000 ms) later, so before
    any tick. A tick fires only when due, issues a probe for every
    registered service again and re-arms the timer for 30000 ms later.
    A service is [unknown] only while its start-up probe is in flight:
    once the probes in flight are all within the 5000 ms timeout and more
    than 5000 ms have passed since start-up, no service is [unknown]. *)
Theorem probe_schedule (t0 : Z) (evs : list Event) (w0 w : World) :
  construct t0 = Some w0 → exec evs w0 = Some w →
  (clock w0 = t0 ∧ timer_due w0 = t0 + 30000 ∧ step w0 Tick = None ∧
   probes w0
   = (λ '(key, r), {| probe_service := r;
                      probe_url := health (deref (store (gw w0)) r);
                      probe_start := t0 |})
       <$> JsMap.entries (services (gw w0))) ∧
  (t0 ≤ clock w ∧ t0 + 30000 ≤ timer_due w) ∧
  (step w Tick
   = if timer_due w <=? clock w
     then Some ({| gw := gw w; clock := clock w;
                   probes := probes w
                     ++ ((λ '(key, r),
                            {| probe_service := r;
                               probe_url := health (deref (store (gw w)) r);
                               probe_start := clock w |})
                           <$> JsMap.entries (services (gw w)));
                   proxying := proxying w;
                   timer_due := clock w + 30000 |}, None)
     else None) ∧
  (∀ key r,
     JsMap.get key (services (gw w)) = Some r →
     status (deref (store (gw w)) r) = "unknown" →
     ∃ p, p ∈ probes w ∧ probe_service p = r ∧ probe_start p = t0) ∧
  ((∀ p, p ∈ probes w → clock w ≤ probe_start p + probeTimeout) →
   t0 + probeTimeout < clock w →
   ∀ key d, descriptor key (gw w) = Some d → status d ≠ "unknown").
Proof.
  intros Hc He.
  assert (reachable w) as Hreach by (by exists t0, evs, w0).
  assert (unknown_pending t0 w) as Hpending.
  { revert He.
    apply (exec_invariant (unknown_pending t0)); [apply step_unknown_pending|].
    apply construct_inv in Hc as ->. intros r Hunk.
    cbn [probes startHealthMonitoring]. rewrite probe_pass_booted.
    destruct r as [|[|[|r]]]; [| | |done]; eexists.
    - split; [apply list_elem_of_here|done].
    - split; [apply list_elem_of_further, list_elem_of_here|done].
    - split; [do 2 apply list_elem_of_further; apply list_elem_of_here|done]. }
  split; [|split; [|split; [|split]]].
  - apply construct_inv in Hc as ->. repeat split; try done.
    simpl. assert ((t0 + healthInterval <=? t0) = false) as ->; [|done].
    unfold healthInterval. lia.
  - revert He. apply (exec_invariant
      (λ w, t0 ≤ clock w ∧ t0 + healthInterval ≤ timer_due w)).
    + apply step_clock.
    + apply construct_inv in Hc as ->. simpl. lia.
  - simpl. by rewrite probe_pass_full.
  - intros key r _ Hunk. by apply Hpending.
  - intros Htimely Hlate key d (r & _ & ->)%descriptor_inv Hunk.
    destruct (Hpending r Hunk) as (p & Hin & _ & Hs).
    specialize (Htimely p Hin). lia.
Qed.

(** * Further properties of the gateway *)

(** ** Registration is permanent *)

Lemma store_step_static h h' r :
  store_step h h' → static (deref h' r) = static (deref h r).
Proof.
  destruct 1 as [|r0 f Hf]; [done|]. apply deref_assign_frame.
  by destruct Hf as [(v & now & Hv & ->)|[(now & ->)|(st & el & now & ->)]].
Qed.

Lemma exec_gateway evs w w' :
  exec evs w = Some w' →
  app (gw w') = app (gw w) ∧ services (gw w') = services (gw w) ∧
  length (store (gw w')) = length (store (gw w)) ∧
  ∀ r, static (deref (store (gw w')) r) = static (deref (store (gw w)) r).
Proof.
  apply (exec_invariant
    (λ w', app (gw w') = app (gw w) ∧ services (gw w') = services (gw w) ∧
           length (store (gw w')) = length (store (gw w)) ∧
           ∀ r, static (deref (store (gw w')) r)
                = static (deref (store (gw w)) r))); [|done].
  intros w1 e w2 out (Ha & Hs & Hl & Hf) (-> & -> & Hst)%step_gateway.
  repeat split; try done.
  - by rewrite (store_step_length _ _ Hst).
  - intros r. by rewrite (store_step_static _ _ r Hst).
Qed.

Lemma reachable_status_ok w :
  reachable w → Forall (λ d, status_ok (status d)) (store (gw w)).
Proof.
  intros (t0 & evs & w0 & Hc & He). revert He.
  apply (exec_invariant
           (λ w, Forall (λ d, status_ok (status d)) (store (gw w)))).
  - intros w1 e w2 out HP (_ & _ & Hst)%step_gateway.
    by eapply store_step_status_ok.
  - apply construct_inv in Hc as ->. simpl. repeat constructor; by left.
Qed.

(** Distinct keys of the registry hold distinct objects. *)
Lemma reachable_get_inj w key key' r :
  reachable w →
  JsMap.get key (services (gw w)) = Some r →
  JsMap.get key' (services (gw w)) = Some r → key = key'.
Proof.
  intros [_ ->]%reachable_static H1%booted_get H2%booted_get.
  destruct H1 as [[-> ->]|[[-> ->]|[-> ->]]];
    destruct H2 as [[-> ?]|[[-> ?]|[-> ?]]]; done.
Qed.

(** X1. Once constructed, the gateway never adds, removes or re-points a
    registry entry, and a descriptor's name, base address, health address
    and route list stay as registered, whatever requests, backend outcomes,
    probe outcomes and timer ticks follow. *)
Theorem registration_is_permanent (t0 : Z) (evs : list Event) (w0 w : World) :
  construct t0 = Some w0 → exec evs w0 = Some w →
  services (gw w) = services (gw w0) ∧
  JsMap.keys (services (gw w))
  = ["user-service"; "product-service"; "order-service"] ∧
  ∀ key d,
    descriptor key (gw w) = Some d →
    ∃ d0, descriptor key (gw w0) = Some d0 ∧
          name d = name d0 ∧ url d = url d0 ∧ health d = health d0 ∧
          routes d = routes d0.
Proof.
  intros Hc He. destruct (exec_gateway _ _ _ He) as (_ & Hsvc & _ & Hst).
  split; [done|]. split.
  { rewrite Hsvc. by apply construct_inv in Hc as ->. }
  intros key d (r & Hget & ->)%descriptor_inv.
  exists (deref (store (gw w0)) r). split.
  - apply descriptor_get. by rewrite <-Hsvc.
  - specialize (Hst r). unfold static in Hst. by simplify_eq.
Qed.

(** ** One service's observations leave the others alone *)

(** X2. When a probe of one service completes, or a request forwarded to
    one service is settled, the descriptor registered under every other
    key is exactly what it was. *)
Theorem observations_are_isolated (w : World) (key : string) :
  reachable w →
  (∀ i p res w' out,
     probes w !! i = Some p →
     JsMap.get key (services (gw w)) = Some (probe_service p) →
     step w (ProbeDone i res) = Some (w', out) →
     ∀ key', key' ≠ key → descriptor key' (gw w') = descriptor key' (gw w)) ∧
  (∀ i p b w' out,
     proxying w !! i = Some p → px_serviceKey p = key →
     step w (Settle i b) = Some (w', out) →
     ∀ key', key' ≠ key → descriptor key' (gw w') = descriptor key' (gw w)).
Proof.
  intros Hreach. pose proof (reachable_ok _ Hreach) as Hok.
  assert (∀ r f key',
            JsMap.get key (services (gw w)) = Some r → key' ≠ key →
            deref (assign r f (store (gw w))) <$> JsMap.get key' (services (gw w))
            = descriptor key' (gw w)) as Hframe.
  { intros r f key' Hget Hne. unfold descriptor.
    destruct (JsMap.get key' (services (gw w))) as [r'|] eqn:Hget'; [|done].
    simpl. rewrite deref_assign_ne; [done|]. intros ->.
    destruct Hne. by eapply reachable_get_inj. }
  split.
  - intros i p res w' out Hp Hget Hstep key' Hne.
    rewrite (step_ProbeDone _ _ _ _ Hp) in Hstep. simplify_eq.
    unfold descriptor at 1. cbn [gw store services with_store].
    rewrite checkServiceHealth_resume_assign.
    destruct res as [st|?]; [destruct (st <? 500)|]; by apply Hframe.
  - intros i p b w' out Hp Hkey Hstep key' Hne.
    assert (JsMap.get key (services (gw w)) = Some (px_service p)) as Hget.
    { rewrite <-Hkey. eapply ok_proxying, list_elem_of_lookup_2; eauto. }
    rewrite (step_Settle _ _ _ _ Hp) in Hstep. simplify_eq.
    unfold descriptor at 1. cbn [gw store services with_store].
    rewrite proxy_settle_store.
    destruct b as [proxyRes|err]; [destruct (_ <? 500)|];
      try by apply Hframe.
    done.
Qed.

(** ** The counts in the reports *)

Lemma count_partition (h : list ServiceDescriptor) (refs : list nat) :
  Forall (λ r, status_ok (status (deref h r))) refs →
  length refs
  = (length (filter (λ r, status (deref h r) = "healthy") refs)
     + length (filter (λ r, status (deref h r) = "unhealthy") refs)
     + length (filter (λ r, status (deref h r) = "unknown") refs))%nat.
Proof.
  induction 1 as [|r refs Hr _ IH]; [done|].
  rewrite !filter_cons. simpl. rewrite IH.
  destruct Hr as [Hr|[Hr|Hr]]; rewrite Hr;
    repeat case_decide; try done; simpl; lia.
Qed.

Lemma filter_all {A} (P : A → Prop) `{∀ x, Decision (P x)} (l : list A) :
  length (filter P l) = length l ↔ Forall P l.
Proof.
  induction l as [|x l IH]; [by split; [constructor|]|].
  rewrite filter_cons. pose proof (length_filter P l) as Hle.
  case_decide as HP; simpl.
  - rewrite Forall_cons. split; [intros [= ?%IH]|intros [_ ?%IH]]; auto.
  - split; [lia|]. by intros [? _]%Forall_cons.
Qed.

(** X3. In a running gateway the summary of [GET /services] adds up:
    [total] is the number of listed services and equals
    [healthy + unhealthy + unknown]. *)
Theorem services_summary_adds_up (w : World) (now : Z) :
  reachable w →
  ∃ data total healthy unhealthy unknown,
    payload (servicesRoute (gw w) now)
    = ServicesReport true data total healthy unhealthy unknown now ∧
    total = length (Object_keys data) ∧
    total = (healthy + unhealthy + unknown)%nat.
Proof.
  intros Hreach. pose proof (reachable_ok _ Hreach) as Hok.
  do 5 eexists. split; [reflexivity|]. split.
  - rewrite collect_keys, as_object_nodup by apply Hok.
    unfold Object_keys, JsMap.size. by rewrite length_fmap.
  - unfold count_status, JsMap.size, JsMap.values.
    rewrite <-count_partition; [by rewrite length_fmap|].
    apply Forall_fmap, Forall_forall. intros [key r] Hin. simpl.
    pose proof (reachable_status_ok _ Hreach) as Hall.
    rewrite Forall_forall in Hall. apply Hall.
    apply list_elem_of_lookup_total_2. eapply ok_refs; [done|].
    apply prop_get_elem; [apply Hok|done].
Qed.

(** X4. In every [GET /health] report, [healthyServices] is at most
    [totalServices], and the overall status is [healthy] exactly when the
    two are equal. *)
Theorem health_counts_agree (g : Gateway) (now : Z) :
  ∃ overall report total healthy,
    payload (healthRoute g now)
    = HealthReport overall "1.0.0" now report total healthy ∧
    (healthy ≤ total)%nat ∧
    (overall = "healthy" ↔ healthy = total) ∧
    (statusCode (healthRoute g now) = 200 ↔ healthy = total).
Proof.
  do 4 eexists. split; [reflexivity|].
  unfold count_status, JsMap.size, JsMap.values.
  rewrite <-(length_fmap snd (services g)).
  split; [apply length_filter|].
  assert (overallHealth g = true ↔
          length (filter (λ r, status (deref (store g) r) = "healthy")
                    (services g).*2) = length (services g).*2) as Hall.
  { rewrite filter_all, overallHealth_true, Forall_forall. done. }
  simpl. destruct (overallHealth g).
  - split; (split; [intros _; by apply Hall|done]).
  - split; (split; [done|intros H%Hall; done]).
Qed.

(** ** The mutable fields hang together *)

Lemma coherent_later t0 now now' d :
  now ≤ now' → coherent t0 now d → coherent t0 now' d.
Proof.
  intros Hle [H1 H2 H3 H4]. split; try done.
  intros t Ht. specialize (H3 t Ht). lia.
Qed.

Lemma coherent_mark_seen t0 now v d :
  t0 ≤ now → v = "healthy" ∨ v = "unhealthy" →
  coherent t0 now d → coherent t0 now (mark_seen v now d).
Proof.
  intros Hle Hv [H1 H2 H3 H4]. split; simpl; try done.
  - split; [by destruct Hv as [-> | ->]|done].
  - intros t [= <-]. lia.
Qed.

Lemma coherent_mark_failed t0 now d :
  t0 ≤ now → coherent t0 now d → coherent t0 now (mark_failed now d).
Proof.
  intros Hle [H1 H2 H3 H4]. split; simpl; try done.
  - intros t [= <-]. lia.
  - right. by left.
Qed.

Lemma coherent_mark_probed t0 now st elapsed d :
  t0 ≤ now → 0 ≤ elapsed →
  coherent t0 now d → coherent t0 now (mark_probed st elapsed now d).
Proof.
  intros Hle Hel [H1 H2 H3 H4]. split; simpl; try done.
  - split; [by destruct (st =? 200)|done].
  - intros t [= <-]. lia.
  - right. right. eauto.
Qed.

Lemma step_timeline t0 w e w' out :
  timeline t0 w → step w e = Some (w', out) → timeline t0 w'.
Proof.
  intros (Hc & Hall & Hp) Hstep.
  destruct e as [d|uuid req|i b|i|i res|]; simpl in Hstep.
  - destruct (Z.leb_spec 0 d); simplify_eq/=. unfold timeline; simpl.
    split; [lia|]. split.
    + eapply Forall_impl; [done|]. intros x. apply coherent_later. lia.
    + intros p Hin. specialize (Hp p Hin). lia.
  - destruct (dispatch _ _ _ _ _); by simplify_eq/=.
  - destruct (proxying w !! i) as [p|]; simpl in Hstep; [|done].
    pose proof (proxy_settle_store p b (clock w) (store (gw w))) as Hs.
    destruct (proxy_settle _ _ _ _) as [h res]. simplify_eq/=.
    unfold timeline; simpl. split; [done|]. split; [|done].
    destruct b as [proxyRes|err]; [destruct (_ <? 500)|]; try done;
      (apply Forall_alter; [done|]); intros d _;
      apply coherent_mark_seen; auto.
  - destruct (proxying w !! i); by simplify_eq/=.
  - destruct (probes w !! i) as [p|] eqn:Hpi; simpl in Hstep; [|done].
    simplify_eq/=. unfold timeline; simpl. split; [done|]. split.
    + rewrite checkServiceHealth_resume_assign.
      assert (0 ≤ clock w - probe_start p) as Hel.
      { specialize (Hp p (list_elem_of_lookup_2 _ _ _ Hpi)). lia. }
      destruct res as [st|?]; [destruct (st <? 500)|];
        (apply Forall_alter; [done|]); intros d _;
        auto using coherent_mark_failed, coherent_mark_probed.
    + eauto using list_elem_of_delete_inv.
  - destruct (timer_due w <=? clock w); simplify_eq/=.
    unfold timeline; simpl. split; [done|]. split; [done|].
    intros p [Hin|Hin]%elem_of_app; [auto|].
    apply probe_pass_service in Hin as (_ & _ & _ & ->). lia.
Qed.

Lemma exec_timeline t0 evs w0 w :
  construct t0 = Some w0 → exec evs w0 = Some w → timeline t0 w.
Proof.
  intros Hc. apply (exec_invariant (timeline t0)); [apply step_timeline|].
  apply construct_inv in Hc as ->. split; [simpl; lia|]. split.
  - simpl. repeat constructor; simpl; try done; by left.
  - intros p (_ & _ & _ & ->)%probe_pass_service. simpl. lia.
Qed.

Lemma registered_elem w key d :
  reachable w → descriptor key (gw w) = Some d → d ∈ store (gw w).
Proof.
  intros Hok%reachable_ok (r & Hget & ->)%descriptor_inv.
  apply list_elem_of_lookup_total_2. by eapply ok_refs.
Qed.

(** X5. In a gateway constructed at [t0], a registered service is
    [unknown] exactly as long as it has no [lastHealthCheck]; a service
    never checked has no [responseTime]; and a [lastHealthCheck] lies
    between the construction and the present. *)
Theorem never_checked_is_unknown (t0 : Z) (evs : list Event) (w0 w : World) :
  construct t0 = Some w0 → exec evs w0 = Some w →
  ∀ key d,
    descriptor key (gw w) = Some d →
    (status d = "unknown" ↔ lastHealthCheck d = None) ∧
    (lastHealthCheck d = None → responseTime d = None) ∧
    (∀ t, lastHealthCheck d = Some t → t0 ≤ t ≤ clock w).
Proof.
  intros Hc He key d Hd.
  destruct (exec_timeline _ _ _ _ Hc He) as (_ & Hall & _).
  rewrite Forall_forall in Hall.
  destruct (Hall d) as [H1 H2 H3 _]; [|done].
  eapply registered_elem; [by exists t0, evs, w0|done].
Qed.

(** X6. In a running gateway, a registered descriptor's [responseTime]
    is [null], the string [timeout], or a non-negative whole number of
    milliseconds followed by [ms]. *)
Theorem responseTime_is_well_formed (w : World) (key : string)
    (d : ServiceDescriptor) :
  reachable w → descriptor key (gw w) = Some d →
  responseTime d = None ∨ responseTime d = Some "timeout" ∨
  ∃ n, 0 ≤ n ∧ responseTime d = Some (pretty n +:+ "ms").
Proof.
  intros Hreach Hd. pose proof Hreach as (t0 & evs & w0 & Hc & He).
  destruct (exec_timeline _ _ _ _ Hc He) as (_ & Hall & _).
  rewrite Forall_forall in Hall.
  destruct (Hall d) as [_ _ _ H4]; [|done]. by eapply registered_elem.
Qed.

(** ** Probes in flight *)

(** X7. Every probe in flight in a running gateway was started no later
    than now and asks the health address registered for the service it
    will update. *)
Theorem probes_ask_registered_health_address (w : World) (p : Probe) :
  reachable w → p ∈ probes w →
  probe_start p ≤ clock w ∧
  ∃ key d,
    JsMap.get key (services (gw w)) = Some (probe_service p) ∧
    descriptor key (gw w) = Some d ∧ probe_url p = health d.
Proof.
  intros Hreach Hin. pose proof Hreach as (t0 & evs & w0 & Hc & He).
  split.
  { destruct (exec_timeline _ _ _ _ Hc He) as (_ & _ & Hp).
    specialize (Hp p Hin). lia. }
  assert (∃ key, JsMap.get key (services booted) = Some (probe_service p) ∧
                 probe_url p = health (deref (store booted) (probe_service p)))
    as (key & Hget & Hurl).
  { revert p Hin. revert He.
    apply (exec_invariant
      (λ w, (services (gw w) = services booted ∧
             ∀ r, static (deref (store (gw w)) r)
                  = static (deref (store booted) r)) ∧
            ∀ p, p ∈ probes w →
                 ∃ key, JsMap.get key (services booted) = Some (probe_service p) ∧
                        probe_url p
                        = health (deref (store booted) (probe_service p)))).
    - intros w1 e w2 out [[Hs Hst] Hp] Hstep.
      destruct (step_gateway _ _ _ _ Hstep) as (_ & Hs' & Hss).
      split.
      { split; [congruence|]. intros r.
        by rewrite (store_step_static _ _ r Hss). }
      destruct e as [d|uuid req|i b|i|i res|]; simpl in Hstep.
      + destruct (0 <=? d); by simplify_eq/=.
      + destruct (dispatch _ _ _ _ _); by simplify_eq/=.
      + destruct (proxying w1 !! i) as [p0|]; simpl in Hstep; [|done].
        destruct (proxy_settle _ _ _ _). by simplify_eq/=.
      + destruct (proxying w1 !! i) as [p0|]; by simplify_eq/=.
      + destruct (probes w1 !! i) as [p0|]; simpl in Hstep; [|done].
        simplify_eq/=. eauto using list_elem_of_delete_inv.
      + destruct (timer_due w1 <=? clock w1); simplify_eq/=.
        intros p [Hin|Hin]%elem_of_app; [auto|].
        unfold probe_pass in Hin. apply list_elem_of_omap in Hin
          as (k & _ & Hk). unfold checkServiceHealth in Hk.
        destruct (JsMap.get k (services (gw w1))) as [r|] eqn:Hget;
          [|done].
        injection Hk as <-. cbn [probe_service probe_url].
        exists k. split; [rewrite Hs in Hget; exact Hget|].
        specialize (Hst r). unfold static in Hst. congruence.
    - apply construct_inv in Hc as ->. split; [done|].
      intros p Hin. simpl in Hin. rewrite probe_pass_booted in Hin.
      apply elem_of_cons in Hin as [->|Hin]; [by exists "user-service"|].
      apply elem_of_cons in Hin as [->|Hin]; [by exists "product-service"|].
      apply elem_of_cons in Hin as [->|Hin]; [by exists "order-service"|].
      by apply elem_of_nil in Hin. }
  destruct (reachable_static _ Hreach) as [_ Hsvc].
  destruct (exec_gateway _ _ _ He) as (_ & _ & _ & Hst).
  exists key, (deref (store (gw w)) (probe_service p)).
  rewrite Hsvc. split; [done|]. split.
  - apply descriptor_get. by rewrite Hsvc.
  - rewrite Hurl. specialize (Hst (probe_service p)).
    apply construct_inv in Hc as ->. unfold static in Hst. by simplify_eq.
Qed.

(** ** The last probe wins *)

Lemma assign_ext r f f' (h : list ServiceDescriptor) :
  (∀ d, f d = f' d) → assign r f h = assign r f' h.
Proof. intros Hf. unfold assign. apply list_alter_ext; auto. Qed.

Lemma probe_resume_absorbs q rq tq f (h : list ServiceDescriptor) :
  (∀ d, static (f d) = static d) →
  checkServiceHealth_resume q rq tq (assign (probe_service q) f h)
  = checkServiceHealth_resume q rq tq h.
Proof.
  intros Hf. rewrite !checkServiceHealth_resume_assign.
  destruct rq as [st|?]; [destruct (st <? 500)|];
    rewrite assign_assign; apply assign_ext; intros d; simpl;
    specialize (Hf d); unfold static in Hf; simplify_eq;
    unfold mark_probed, mark_failed, set_responseTime, set_lastHealthCheck,
      set_status; simpl; congruence.
Qed.

(** X8. A probe completion overwrites whatever an earlier observation of
    the same service wrote: after it, the store is the same as if the
    earlier probe completion, or the earlier proxy observation, had never
    happened. *)
Theorem last_probe_wins (p q : Probe) (rp rq : AxiosResult) (tp tq : Z)
    (px : Proxying) (b : Backend) (h : list ServiceDescriptor) :
  (probe_service p = probe_service q →
   checkServiceHealth_resume q rq tq (checkServiceHealth_resume p rp tp h)
   = checkServiceHealth_resume q rq tq h) ∧
  (px_service px = probe_service q →
   checkServiceHealth_resume q rq tq (proxy_settle px b tp h).1
   = checkServiceHealth_resume q rq tq h).
Proof.
  split.
  - intros Heq. rewrite (checkServiceHealth_resume_assign p), Heq.
    destruct rp as [st|?]; [destruct (st <? 500)|];
      by apply probe_resume_absorbs.
  - intros Heq. rewrite proxy_settle_store, Heq.
    destruct b as [proxyRes|err]; [destruct (_ <? 500)|]; try done;
      by apply probe_resume_absorbs.
Qed.

(** ** The interval timer *)

(** X9. Two firings of the health timer are never less than 30000 ms
    apart, whatever happens in between. *)
Theorem ticks_are_spaced (w w1 w2 w3 : World) (evs : list Event)
    (out out' : option Response) :
  step w Tick = Some (w1, out) → exec evs w1 = Some w2 →
  step w2 Tick = Some (w3, out') →
  clock w + 30000 ≤ clock w2.
Proof.
  intros H1 He H2.
  assert (clock w ≤ clock w2 ∧ clock w + healthInterval ≤ timer_due w2)
    as [_ Hdue].
  { revert He. apply (exec_invariant
      (λ w', clock w ≤ clock w' ∧ clock w + healthInterval ≤ timer_due w')).
    - intros wa e wb o [Hc Hd] Hstep.
      destruct e as [d|uuid req|i b|i|i res|]; simpl in Hstep.
      + destruct (Z.leb_spec 0 d); simplify_eq/=. lia.
      + destruct (dispatch _ _ _ _ _); by simplify_eq/=.
      + destruct (proxying wa !! i) as [p0|]; simpl in Hstep; [|done].
        destruct (proxy_settle _ _ _ _). by simplify_eq/=.
      + destruct (proxying wa !! i) as [p0|]; by simplify_eq/=.
      + destruct (probes wa !! i) as [p0|]; simpl in Hstep; [|done].
        by simplify_eq/=.
      + destruct (timer_due wa <=? clock wa); simplify_eq/=. lia.
    - simpl in H1. destruct (timer_due w <=? clock w); simplify_eq/=. lia. }
  simpl in H2. destruct (timer_due w2 <=? clock w2) eqn:Hd; [|done].
  unfold healthInterval in Hdue. lia.
Qed.

(** ** Forwarded requests *)





(** A forwarded request left through one of the three mounts, after the
    tagging middleware. *)
Lemma dispatch_booted_Forwarded g uuid now req p :
  dispatch (app booted) g uuid now req = Forwarded p →
  ∃ mount target,
    (mount, px_serviceKey p, px_service p, target) ∈ mounts ∧
    use_matches mount (pathname (originalUrl req)) = true ∧
    proxy_forward (px_serviceKey p) (px_service p) target (mount, mount)
      (serviceDiscovery uuid now req) = Some p.
Proof.
  intros Hd.
  destruct (dispatch_Forwarded _ _ _ _ _ _ Hd)
    as (l & target & rw & _ & Hin & Hm & Hh & _).
  assert (∃ mount, (mount, px_serviceKey p, px_service p, target) ∈ mounts ∧
                   use_matches mount (pathname (originalUrl req)) = true)
    as (mount & Hmount & Hmatch).
  { unfold booted in Hin. cbn [app] in Hin.
    repeat (apply elem_of_cons in Hin as [->|Hin]; [try done|]);
      [| | |by apply elem_of_nil in Hin];
      cbn [handler] in Hh; injection Hh as <- <- <- <-; eexists;
      (split; [|exact Hm]); unfold mounts.
    - apply list_elem_of_here.
    - apply list_elem_of_further, list_elem_of_here.
    - do 2 apply list_elem_of_further. apply list_elem_of_here. }
  exists mount, target. split; [done|]. split; [done|].
  rewrite (dispatch_mounted g uuid now req _ _ _ _ Hmount Hmatch) in Hd.
  destruct (proxy_forward _ _ _ _ _); by simplify_eq.
Qed.

Lemma reachable_forwarded w p :
  reachable w → p ∈ proxying w →
  ∃ mount target uuid now req,
    (mount, px_serviceKey p, px_service p, target) ∈ mounts ∧
    use_matches mount (pathname (originalUrl req)) = true ∧
    proxy_forward (px_serviceKey p) (px_service p) target (mount, mount)
      (serviceDiscovery uuid now req) = Some p.
Proof.
  intros (t0 & evs & w0 & Hc & He). revert p. revert He.
  apply (exec_invariant
    (λ w, app (gw w) = app booted ∧
          ∀ p, p ∈ proxying w →
            ∃ mount target uuid now req,
              (mount, px_serviceKey p, px_service p, target) ∈ mounts ∧
              use_matches mount (pathname (originalUrl req)) = true ∧
              proxy_forward (px_serviceKey p) (px_service p) target
                (mount, mount) (serviceDiscovery uuid now req) = Some p)).
  - intros w1 e w2 out [Happ Hp] Hstep.
    destruct (step_gateway _ _ _ _ Hstep) as (Happ' & _ & _).
    split; [congruence|].
    destruct e as [d|uuid req|i b|i|i res|]; simpl in Hstep.
    + destruct (0 <=? d); by simplify_eq/=.
    + destruct (dispatch _ _ _ _ _) as [|p0| |] eqn:Hd; simplify_eq/=; try done.
      intros p [Hin| ->%list_elem_of_singleton]%elem_of_app; [auto|].
      rewrite Happ in Hd.
      apply dispatch_booted_Forwarded in Hd as (mount & target & H1 & H2 & H3).
      by exists mount, target, uuid, (clock w1), req.
    + destruct (proxying w1 !! i) as [p0|]; simpl in Hstep; [|done].
      destruct (proxy_settle _ _ _ _). simplify_eq/=.
      eauto using list_elem_of_delete_inv.
    + destruct (proxying w1 !! i) as [p0|]; simplify_eq/=.
      eauto using list_elem_of_delete_inv.
    + destruct (probes w1 !! i) as [p0|]; simpl in Hstep; [|done].
      by simplify_eq/=.
    + destruct (timer_due w1 <=? clock w1); by simplify_eq/=.
  - apply construct_inv in Hc as ->. split; [done|].
    by intros p ?%elem_of_nil.
Qed.

Lemma proxy_forward_tagged key service target rw uuid now req p :
  proxy_forward key service target rw (serviceDiscovery uuid now req) = Some p →
  p = {| px_serviceKey := key; px_service := service;
         px_req := serviceDiscovery uuid now req;
         px_proxyReq :=
           setHeader "X-Forwarded-By" "api-gateway"
             (setHeader "X-Gateway-Version" "1.0.0"
                (setHeader "X-Gateway-Timestamp" (toISOString now)
                   (setHeader "X-Gateway-Request-ID" uuid
                      {| preq_target := target; preq_method := method req;
                         preq_path := rewritePath rw (originalUrl req);
                         preq_headers := reqHeaders req;
                         preq_body := piped req |}))) |}.
Proof. unfold proxy_forward. simpl. by intros [= <-]. Qed.

(** X10. The id the tagging middleware drew for a request stays with it:
    a forwarded request in flight has a request id, the backend got that
    id in the [x-gateway-request-id] header, and whichever answer the
    caller gets carries the same id, in the [X-Gateway-Request-ID] header
    of a relayed response or in the body of the 503. *)
Theorem request_id_correlates (w : World) (i : nat) (p : Proxying) :
  reachable w → proxying w !! i = Some p →
  ∃ id,
    requestId (px_req p) = Some id ∧
    prop_get "x-gateway-request-id" (preq_headers (px_proxyReq p)) = Some id ∧
    (∀ proxyRes,
       ∃ w' res,
         step w (Settle i (Answered proxyRes)) = Some (w', Some res) ∧
         prop_get "X-Gateway-Request-ID" (headers res) = Some (Some id)) ∧
    (∀ err,
       ∃ w' error message service timestamp retryAfter suggestions,
         step w (Settle i (Failed err))
         = Some (w', Some {| statusCode := 503; headers := [];
                             payload :=
                               ServiceUnavailable error message service
                                 (Some id) timestamp retryAfter suggestions |})).
Proof.
  intros Hreach Hp.
  destruct (reachable_forwarded w p Hreach)
    as (mount & target & uuid & now & req & _ & _ & Hfw);
    [by eapply list_elem_of_lookup_2|].
  apply proxy_forward_tagged in Hfw. exists uuid.
  split; [by rewrite Hfw|]. split.
  { rewrite Hfw. simpl.
    do 3 (rewrite prop_get_set_ne by done). apply prop_get_set_eq. }
  split.
  - intros proxyRes. do 2 eexists. split; [by apply step_Settle|].
    rewrite proxy_settle_Answered, Hfw. simpl. apply prop_get_set_eq.
  - intros err. do 7 eexists. rewrite (step_Settle _ _ _ _ Hp).
    rewrite Hfw. reflexivity.
Qed.


(** ** Which layer answers *)

(** X12. A path lies under at most one of the three proxy mounts, and a
    path under a mount is none of the gateway's own routes. *)
Theorem mounts_are_disjoint (path : string)
    (m m' : string * string * nat * string) :
  m ∈ mounts → m' ∈ mounts →
  use_matches m.1.1.1 path = true → use_matches m'.1.1.1 path = true →
  m = m' ∧
  route_matches "/health" path = false ∧ route_matches "/" path = false ∧
  route_matches "/services" path = false.
Proof.
  intros Hm Hm' H H'. unfold mounts in Hm, Hm'.
  repeat (apply elem_of_cons in Hm as [->|Hm]);
    [| | |by apply elem_of_nil in Hm];
    (repeat (apply elem_of_cons in Hm' as [->|Hm']);
       [| | |by apply elem_of_nil in Hm']); simpl in H, H'.
  - by destruct (under_users _ H) as (_ & ? & ? & ?).
  - destruct (under_products _ H') as (_ & _ & _ & _ & ?). congruence.
  - destruct (under_orders _ H') as (_ & _ & _ & _ & ? & _). congruence.
  - destruct (under_products _ H) as (_ & _ & _ & _ & ?). congruence.
  - by destruct (under_products _ H) as (_ & ? & ? & ? & _).
  - destruct (under_orders _ H') as (_ & _ & _ & _ & _ & ?). congruence.
  - destruct (under_orders _ H) as (_ & _ & _ & _ & ? & _). congruence.
  - destruct (under_orders _ H) as (_ & _ & _ & _ & _ & ?). congruence.
  - by destruct (under_orders _ H) as (_ & ? & ? & ? & _).
Qed.

(** What the fallback answers with in a running gateway: the request is
    tagged first exactly when its path is under [/api/]. *)
Lemma dispatch_fallback w uuid req :
  reachable w → routed (app (gw w)) req = false →
  step w (Arrive uuid req)
  = Some (w, Some (fallbackRoute (gw w)
                     (if use_matches "/api/*" (pathname (originalUrl req))
                      then serviceDiscovery uuid (clock w) req else req)
                     (clock w))).
Proof.
  intros [Happ _]%reachable_static Hr. rewrite Happ, routed_booted in Hr.
  cbn zeta in Hr.
  repeat (apply orb_false_iff in Hr as [? Hr]).
  cbn [step]. rewrite Happ. unfold booted. cbn [app dispatch].
  unfold layer_matches.
  cbn [verb mountpath handler method originalUrl serviceDiscovery].
  destruct (use_matches "/api/*" (pathname (originalUrl req)));
    cbn [method originalUrl serviceDiscovery];
    repeat match goal with
           | H : _ = false |- _ => rewrite H; clear H
           end;
    by rewrite use_matches_star.
Qed.

(** X13. The 404 of the fallback carries a request id exactly when the
    path is under [/api/]: only there does the tagging middleware run
    before the fallback. *)
Theorem fallback_request_id (w : World) (uuid : string) (req : Request) :
  reachable w → routed (app (gw w)) req = false →
  requestId req = None →
  ∃ error message available suggestions,
    step w (Arrive uuid req)
    = Some (w, Some {| statusCode := 404; headers := [];
                       payload :=
                         RouteNotFound error message available suggestions
                           (if starts_with "/api/"
                                 (lower (pathname (originalUrl req)))
                            then Some uuid else None)
                           (clock w) |}).
Proof.
  intros Hreach Hr Hid. do 4 eexists.
  rewrite (dispatch_fallback _ _ _ Hreach Hr). unfold fallbackRoute.
  change (use_matches "/api/*" (pathname (originalUrl req)))
    with (starts_with "/api/" (lower (pathname (originalUrl req)))).
  destruct (starts_with "/api/" _); simpl; rewrite ?Hid; reflexivity.
Qed.

(** X14. The gateway's own routes answer GET and HEAD only: any other
    method on [/health], [/] or [/services] gets the fallback's 404, and
    the world is left as it was. (An OPTIONS request is answered by cors
    and never reaches the routes.) *)
Theorem other_methods_fall_through (w : World) (uuid : string) (req : Request) :
  reachable w →
  method req ≠ "GET" → method req ≠ "HEAD" → method req ≠ "OPTIONS" →
  route_matches "/health" (pathname (originalUrl req)) = true ∨
  route_matches "/" (pathname (originalUrl req)) = true ∨
  route_matches "/services" (pathname (originalUrl req)) = true →
  step w (Arrive uuid req)
  = Some (w, Some (fallbackRoute (gw w) req (clock w))).
Proof.
  intros Hreach Hget%String.eqb_neq Hhead%String.eqb_neq _ Hroute.
  assert (use_matches "/api/*" (pathname (originalUrl req)) = false ∧
          use_matches "/api/users" (pathname (originalUrl req)) = false ∧
          use_matches "/api/products" (pathname (originalUrl req)) = false ∧
          use_matches "/api/orders" (pathname (originalUrl req)) = false)
    as (Hapi & Hu & Hp & Ho).
  { destruct Hroute as [H|[H|H]]; repeat split; at_route H. }
  rewrite dispatch_fallback; [by rewrite Hapi|done|].
  destruct (reachable_static _ Hreach) as [-> _].
  rewrite routed_booted. cbn zeta. rewrite Hget, Hhead, Hu, Hp, Ho.
  by rewrite !andb_false_r.
Qed.

(** X15. [GET /] answers 200 and changes nothing; it lists the registered
    services in registration order, each with the name, route list and
    status its descriptor has at that moment. *)
Theorem info_lists_the_registry (w : World) (uuid : string) (req : Request) :
  reachable w → method req = "GET" →
  route_matches "/" (pathname (originalUrl req)) = true →
  ∃ message version features listed endpoints,
    step w (Arrive uuid req)
    = Some (w, Some {| statusCode := 200; headers := [];
                       payload := GatewayInfo message version features listed
                                    endpoints (clock w) |}) ∧
    ie_id <$> listed = JsMap.keys (services (gw w)) ∧
    ∀ e, e ∈ listed →
         ∃ d, descriptor (ie_id e) (gw w) = Some d ∧
              ie_name e = name d ∧ ie_routes e = routes d ∧
              ie_status e = status d.
Proof.
  intros Hreach Hget Hm. pose proof (reachable_ok _ Hreach) as Hok.
  destruct (reachable_static _ Hreach) as [Happ _].
  do 5 eexists. split; [|split].
  - cbn [step]. rewrite Happ. unfold booted. cbn [app dispatch].
    unfold layer_matches. cbn [verb mountpath handler]. rewrite Hget.
    assert (use_matches "/api/*" (pathname (originalUrl req)) = false) as ->
      by at_route Hm.
    assert (route_matches "/health" (pathname (originalUrl req)) = false) as ->
      by at_route Hm.
    rewrite Hm. reflexivity.
  - rewrite <-list_fmap_compose. unfold JsMap.keys, JsMap.entries.
    apply list_fmap_ext. by intros ? [].
  - intros e ([key r] & -> & Hin)%list_elem_of_fmap.
    exists (deref (store (gw w)) r). split; [|done]. simpl.
    apply descriptor_get, prop_get_elem; [apply Hok|done].
Qed.

(** * Properties of the user service *)

(** ** Case and segments *)

Lemma lower_ascii_eqb_slash c : Ascii.eqb (lower_ascii c) "/" = Ascii.eqb c "/".
Proof. by destruct c as [[] [] [] [] [] [] [] []]. Qed.

Lemma lower_ascii_eqb_percent c :
  Ascii.eqb (lower_ascii c) "%" = Ascii.eqb c "%".
Proof. by destruct c as [[] [] [] [] [] [] [] []]. Qed.

Lemma lower_drop_chars n s :
  lower (UserService.drop_chars n s) = UserService.drop_chars n (lower s).
Proof. revert s. induction n as [|n IH]; intros [|c s]; simpl; auto. Qed.

Lemma take_segment_lower s :
  UserService.take_segment (lower s)
  = (lower (UserService.take_segment s).1, lower (UserService.take_segment s).2).
Proof.
  induction s as [|c s IH]; simpl; [done|].
  rewrite lower_ascii_eqb_slash. destruct (Ascii.eqb c "/"); [done|].
  rewrite IH. by destruct (UserService.take_segment s).
Qed.

Lemma has_percent_lower s :
  UserService.has_percent (lower s) = UserService.has_percent s.
Proof.
  induction s as [|c s IH]; simpl; [done|].
  by rewrite lower_ascii_eqb_percent, IH.
Qed.

Lemma lower_empty s : lower s = "" → s = "".
Proof. by destruct s. Qed.

Lemma lower_length s : String.length (lower s) = String.length s.
Proof. induction s as [|c s IH]; simpl; auto. Qed.

(** [param_route], read off the lower-cased path. *)
Lemma param_route_lower stem tail path :
  UserService.param_route stem tail path
  = if starts_with (lower stem +:+ "/") (lower path) then
      let seg := (UserService.take_segment
                    (UserService.drop_chars (String.length stem + 1) path)).1 in
      let '(lseg, lrest) :=
        UserService.take_segment
          (UserService.drop_chars (String.length stem + 1) (lower path)) in
      if String.eqb lseg "" then None
      else if String.eqb lrest (lower tail)
              || String.eqb lrest (lower tail +:+ "/")
      then Some seg else None
    else None.
Proof.
  unfold UserService.param_route.
  destruct (starts_with _ _); [|done].
  rewrite <-lower_drop_chars, take_segment_lower.
  destruct (UserService.take_segment _) as [seg rest]; simpl.
  destruct (String.eqb_spec seg "") as [->|Hne]; [done|].
  destruct (String.eqb_spec (lower seg) "") as [?%lower_empty|_]; done.
Qed.

Lemma param_segment_lower stem path :
  lower (UserService.take_segment
           (UserService.drop_chars (String.length stem + 1) path)).1
  = (UserService.take_segment
       (UserService.drop_chars (String.length stem + 1) (lower path))).1.
Proof. by rewrite <-lower_drop_chars, take_segment_lower. Qed.

(** ** parseInt *)

Lemma lower_ascii_s c : lower_ascii c = "s"%char → c = "s"%char ∨ c = "S"%char.
Proof.
  destruct c as [[] [] [] [] [] [] [] []]; vm_compute; intros; auto; done.
Qed.

(** Text that starts with the letter s is not a number. *)
Lemma parseInt_letter_s c s :
  lower_ascii c = "s"%char → UserService.parseInt (String c s) = None.
Proof. intros [-> | ->]%lower_ascii_s; by destruct s. Qed.

(** ** Looking users up *)

Lemma find_seqZ (l : list UserService.User) (m n : Z) :
  UserService.id <$> l = seqZ m (Z.of_nat (length l)) →
  List.find (λ u, UserService.id u =? n) l
  = if decide (m ≤ n < m + Z.of_nat (length l))
    then l !! Z.to_nat (n - m) else None.
Proof.
  revert m. induction l as [|u l IH]; intros m Hids.
  - simpl. case_decide; [lia|done].
  - rewrite length_cons, Nat2Z.inj_succ, seqZ_cons in Hids by lia.
    simpl in Hids. injection Hids as Hu Hl.
    replace (Z.pred (Z.succ (Z.of_nat (length l)))) with (Z.of_nat (length l))
      in Hl by lia.
    simpl. destruct (Z.eqb_spec (UserService.id u) n) as [Heq|Hne].
    + case_decide as Hd; [|simpl in Hd; lia].
      by replace (Z.to_nat (n - m)) with 0%nat by lia.
    + rewrite (IH _ Hl). simpl length.
      repeat case_decide; try lia; [|done].
      replace (Z.to_nat (n - m)) with (S (Z.to_nat (n - Z.succ m))) by lia.
      done.
Qed.

Lemma createUser_ids st req now :
  UserService.ids_in_order st →
  UserService.ids_in_order (UserService.createUser st req now).1.
Proof.
  unfold UserService.ids_in_order. simpl. intros Hids.
  rewrite fmap_app, length_app, Hids. cbn [length fmap list_fmap UserService.id].
  rewrite Nat2Z.inj_add.
  rewrite (seqZ_app _ (Z.of_nat (length (UserService.users st))) _) by lia.
  f_equal. rewrite seqZ_cons, seqZ_nil by lia. f_equal. lia.
Qed.

Lemma dispatch_users st now req :
  UserService.users (UserService.dispatch st now req).1 = UserService.users st ∨
  (UserService.dispatch st now req).1 = (UserService.createUser st req now).1.
Proof.
  unfold UserService.dispatch.
  repeat (case_match; simpl; auto).
  all: simplify_eq/=; auto.
Qed.

Lemma dispatch_ids st now req :
  UserService.ids_in_order st →
  UserService.ids_in_order (UserService.dispatch st now req).1.
Proof.
  intros Hids. destruct (dispatch_users st now req) as [Hu| ->].
  - unfold UserService.ids_in_order. by rewrite Hu.
  - by apply createUser_ids.
Qed.

Lemma serve_ids reqs st :
  UserService.ids_in_order st →
  UserService.ids_in_order (UserService.serve reqs st).
Proof.
  revert st. induction reqs as [|[now req] reqs IH]; intros st Hids; [done|].
  simpl. by apply IH, dispatch_ids.
Qed.

Lemma construct_ids env : UserService.ids_in_order (UserService.construct env).
Proof. reflexivity. Qed.

(** What [findUser] finds when the ids are in order. *)
Lemma findUser_in_order st param :
  UserService.ids_in_order st →
  UserService.findUser st param
  = n ← UserService.parseInt param;
    if decide (1 ≤ n ≤ Z.of_nat (length (UserService.users st)))
    then UserService.users st !! Z.to_nat (n - 1) else None.
Proof.
  intros Hids. unfold UserService.findUser.
  destruct (UserService.parseInt param) as [n|]; [|done]. simpl.
  rewrite (find_seqZ _ 1 n Hids). repeat case_decide; try done; lia.
Qed.

Lemma lookup_id st (k : nat) u :
  UserService.ids_in_order st →
  UserService.users st !! k = Some u → UserService.id u = 1 + Z.of_nat k.
Proof.
  intros Hids Hk.
  assert ((UserService.id <$> UserService.users st) !! k
          = Some (UserService.id u)) as Hf by (by rewrite list_lookup_fmap, Hk).
  rewrite Hids in Hf. by apply lookup_seqZ in Hf as [-> _].
Qed.

(** X17. In the user service, after any sequence of requests,
    [GET /api/users/:id] answers 200 with the user whose id is the number
    [parseInt] reads from the parameter when that number is between 1 and
    the number of users, and 404 [User not found] otherwise, also when the
    parameter is not a number. *)
Theorem user_lookup (env : option string) (reqs : list (Z * UserService.Req))
    (param : string) (now : Z) :
  let st := UserService.serve reqs (UserService.construct env) in
  let not_found :=
    {| UserService.status := 404;
       UserService.payload :=
         UserService.ErrorBody "User not found" (UserService.serviceTag st now)
           (Some now) |} in
  match UserService.parseInt param with
  | Some n =>
      if decide (1 ≤ n ≤ Z.of_nat (length (UserService.users st))) then
        ∃ u, UserService.users st !! Z.to_nat (n - 1) = Some u ∧
             UserService.id u = n ∧
             UserService.getUser st param now
             = {| UserService.status := 200;
                  UserService.payload :=
                    UserService.UserBody u (UserService.serviceTag st now) now |}
      else UserService.getUser st param now = not_found
  | None => UserService.getUser st param now = not_found
  end.
Proof.
  intros st not_found.
  assert (UserService.ids_in_order st) as Hids
    by apply serve_ids, construct_ids.
  unfold UserService.getUser. rewrite (findUser_in_order _ _ Hids).
  destruct (UserService.parseInt param) as [n|]; [|done]. simpl.
  case_decide as Hn; [|done].
  destruct (UserService.users st !! Z.to_nat (n - 1)) as [u|] eqn:Hu.
  - exists u. split; [done|]. split; [|done].
    rewrite (lookup_id _ _ _ Hids Hu). lia.
  - apply lookup_ge_None in Hu. lia.
Qed.

Lemma at_users_root path :
  route_matches "/api/users" path = true →
  route_matches "/health" path = false ∧ route_matches "/" path = false ∧
  UserService.param_route "/api/users" "" path = None.
Proof.
  intros H. unfold route_matches in H.
  apply orb_true_iff in H as [H|H]; apply String.eqb_eq in H;
    rewrite param_route_lower; unfold route_matches; rewrite H;
    by vm_compute.
Qed.

(** X18. [POST /api/users] answers 201 and appends one user, whose id is
    one more than the number of users before and whose name and email are
    the ones in the body; every earlier lookup still finds what it found,
    and a lookup of the new id finds the new user. *)
Theorem create_then_lookup (env : option string)
    (reqs : list (Z * UserService.Req)) (req : UserService.Req) (now : Z) :
  UserService.method req = "POST" →
  route_matches "/api/users" (UserService.path req) = true →
  let st := UserService.serve reqs (UserService.construct env) in
  ∃ u st',
    UserService.dispatch st now req
    = (st', UserService.Replied
              {| UserService.status := 201;
                 UserService.payload :=
                   UserService.CreatedBody "User created successfully" u
                     (UserService.serviceTag st now) now |}) ∧
    UserService.users st' = UserService.users st ++ [u] ∧
    UserService.id u = Z.of_nat (length (UserService.users st)) + 1 ∧
    UserService.name u = UserService.field "name" (UserService.body req) ∧
    UserService.email u = UserService.field "email" (UserService.body req) ∧
    (∀ param, UserService.parseInt param = Some (UserService.id u) →
              UserService.findUser st' param = Some u) ∧
    (∀ param u', UserService.findUser st param = Some u' →
                 UserService.findUser st' param = Some u').
Proof.
  intros Hpost Hroot st.
  assert (UserService.ids_in_order st) as Hids
    by apply serve_ids, construct_ids.
  pose proof (createUser_ids st req now Hids) as Hids'.
  destruct (at_users_root _ Hroot) as (Hh & Hi & Hp).
  do 2 eexists. split.
  { unfold UserService.dispatch, UserService.reads.
    rewrite Hh, Hi, Hp, Hroot, Hpost. reflexivity. }
  cbn [UserService.users UserService.id UserService.name UserService.email].
  repeat split.
  - intros param Hparam. rewrite (findUser_in_order _ _ Hids'), Hparam.
    cbn [UserService.createUser fst UserService.users mbind option_bind].
    rewrite length_app. cbn [length]. case_decide as Hn; [|lia].
    rewrite lookup_app_r by lia.
    replace (Z.to_nat _ - length (UserService.users st))%nat with 0%nat by lia.
    done.
  - intros param u'. rewrite (findUser_in_order _ _ Hids).
    rewrite (findUser_in_order _ _ Hids').
    destruct (UserService.parseInt param) as [n|]; [|done].
    cbn [UserService.createUser fst UserService.users mbind option_bind].
    rewrite length_app. cbn [length].
    case_decide as Hn; [|done]. intros Hu.
    case_decide; [|lia]. by apply lookup_app_l_Some.
Qed.

(** ** What the service never does *)

Lemma at_simulate_error path :
  route_matches "/api/users/simulate-error" path = true →
  route_matches "/health" path = false ∧ route_matches "/" path = false ∧
  route_matches "/api/users" path = false ∧
  ∃ param,
    UserService.param_route "/api/users" "" path = Some param ∧
    UserService.has_percent param = false ∧
    UserService.parseInt param = None.
Proof.
  intros H. unfold route_matches in H.
  assert (lower (UserService.take_segment
                   (UserService.drop_chars (String.length "/api/users" + 1)
                      path)).1 = "simulate-error") as Hseg.
  { rewrite param_segment_lower.
    apply orb_true_iff in H as [H|H]; apply String.eqb_eq in H; by rewrite H. }
  apply orb_true_iff in H as [H|H]; apply String.eqb_eq in H;
    (split; [unfold route_matches; by rewrite H|]);
    (split; [unfold route_matches; by rewrite H|]);
    (split; [unfold route_matches; by rewrite H|]);
    exists (UserService.take_segment
              (UserService.drop_chars (String.length "/api/users" + 1) path)).1;
    (split; [rewrite param_route_lower, H; by vm_compute|]);
    (split; [by rewrite <-has_percent_lower, Hseg|]);
    destruct (UserService.take_segment _).1 as [|c s]; try done;
    injection Hseg as Hc _; by apply parseInt_letter_s.
Qed.

(** X19. The error-simulation route of the user service is dead code: a
    GET of [/api/users/simulate-error] is taken by the [/api/users/:id]
    route, registered before it, and answered 404 [User not found],
    whatever the query says. So the service never answers 500 or 400 and
    never delays an answer. *)
Theorem simulate_error_is_shadowed (st : UserService.State) (now : Z)
    (req : UserService.Req) :
  (route_matches "/api/users/simulate-error" (UserService.path req) = true →
   UserService.reads req = true →
   UserService.dispatch st now req
   = (st, UserService.Replied
            {| UserService.status := 404;
               UserService.payload :=
                 UserService.ErrorBody "User not found"
                   (UserService.serviceTag st now) (Some now) |})) ∧
  (∀ ms res,
     (UserService.dispatch st now req).2 ≠ UserService.RepliedAfter ms res) ∧
  (∀ res,
     (UserService.dispatch st now req).2 = UserService.Replied res →
     UserService.status res = 200 ∨ UserService.status res = 201 ∨
     UserService.status res = 404).
Proof.
  assert (route_matches "/api/users/simulate-error" (UserService.path req) = true →
          UserService.reads req = true →
          UserService.dispatch st now req
          = (st, UserService.Replied
                   {| UserService.status := 404;
                      UserService.payload :=
                        UserService.ErrorBody "User not found"
                          (UserService.serviceTag st now) (Some now) |}))
    as Hshadow.
  { intros (Hh & Hi & Hu & param & Hp & Hpc & Hn)%at_simulate_error Hreads.
    unfold UserService.dispatch. rewrite Hh, Hi, Hu, Hp, Hpc, Hreads.
    cbn [andb]. unfold UserService.getUser, UserService.findUser.
    by rewrite Hn. }
  split; [done|].
  destruct (route_matches "/api/users/simulate-error" (UserService.path req)
            && UserService.reads req) eqn:Hsim.
  { apply andb_true_iff in Hsim as [H1 H2]. rewrite (Hshadow H1 H2).
    split; [done|]. intros res [= <-]. auto. }
  unfold UserService.dispatch. rewrite Hsim.
  unfold UserService.getUser, UserService.getProfile.
  split.
  - intros ms res. repeat (case_match; simpl; try done).
  - intros res. repeat (case_match; simpl; try done);
      intros [= <-]; simpl; auto.
Qed.

(** X20. The user service handles no method but GET, HEAD and POST,
    although its own [GET /] lists a PUT and a DELETE endpoint: a request
    with any other method changes nothing and gets no answer from the
    service's routes. (An OPTIONS request is answered by cors and never
    reaches the routes.) *)
Theorem update_and_delete_are_not_served (st : UserService.State) (now : Z)
    (req : UserService.Req) :
  UserService.method req ≠ "GET" → UserService.method req ≠ "HEAD" →
  UserService.method req ≠ "POST" → UserService.method req ≠ "OPTIONS" →
  (UserService.dispatch st now req = (st, UserService.NoRoute) ∨
   UserService.dispatch st now req = (st, UserService.Undecoded)) ∧
  ∃ service version description endpoints rid ts ver,
    UserService.payload (UserService.info req now)
    = UserService.InfoBody service version description endpoints rid ts ver now ∧
    "PUT /api/users/:id - Update user" ∈ endpoints ∧
    "DELETE /api/users/:id - Delete user" ∈ endpoints.
Proof.
  intros Hg%String.eqb_neq Hh%String.eqb_neq Hp%String.eqb_neq _. split.
  - unfold UserService.dispatch, UserService.reads. rewrite Hg, Hh, Hp.
    rewrite !andb_false_r. cbn [orb].
    repeat (case_match; auto).
  - do 7 eexists. split; [reflexivity|]. split.
    + do 4 apply list_elem_of_further. apply list_elem_of_here.
    + do 5 apply list_elem_of_further. apply list_elem_of_here.
Qed.

(** X21. The user service never removes or changes a user: after any
    sequence of requests the users it started with are still there, in
    place, followed by the ones created since; and a request that is not a
    POST leaves the service as it was. *)
Theorem users_only_grow (reqs : list (Z * UserService.Req))
    (st : UserService.State) :
  (∃ added,
     UserService.users (UserService.serve reqs st)
     = UserService.users st ++ added) ∧
  UserService.port (UserService.serve reqs st) = UserService.port st ∧
  (∀ now req,
     UserService.method req ≠ "POST" → (UserService.dispatch st now req).1 = st).
Proof.
  split; [|split].
  - revert st. induction reqs as [|[now req] reqs IH]; intros st.
    + exists []. by rewrite app_nil_r.
    + simpl. destruct (IH (UserService.dispatch st now req).1) as [added ->].
      destruct (dispatch_users st now req) as [-> | ->]; [by eexists|].
      simpl. eexists. by rewrite <-app_assoc.
  - revert st. induction reqs as [|[now req] reqs IH]; intros st; [done|].
    simpl. rewrite IH. unfold UserService.dispatch.
    repeat (case_match; simpl; try done); by simplify_eq/=.
  - intros now req Hp%String.eqb_neq. unfold UserService.dispatch.
    rewrite Hp, !andb_false_r. repeat (case_match; simpl; try done).
Qed.

(** ** The gateway and the user service together *)

(** X22. What the gateway forwards, the user service echoes: for a
    request the gateway has in flight, the user list the service answers
    a GET of [/api/users] with names the gateway's request id as
    [gateway.requestId] and [api-gateway] as [gateway.forwardedBy]. *)
Theorem gateway_headers_are_echoed (w : World) (p : Proxying)
    (st : UserService.State) (now : Z) (parsed_query parsed_body : obj UserService.Value) :
  reachable w → p ∈ proxying w →
  let req := UserService.receive (px_proxyReq p) parsed_query parsed_body in
  UserService.method req = "GET" →
  route_matches "/api/users" (UserService.path req) = true →
  UserService.dispatch st now req
  = (st, UserService.Replied
           {| UserService.status := 200;
              UserService.payload :=
                UserService.UsersBody (UserService.users st)
                  (UserService.serviceTag st now)
                  (requestId (px_req p)) (Some "api-gateway") now |}).
Proof.
  intros Hreach Hin req Hget Hroot.
  destruct (reachable_forwarded w p Hreach Hin)
    as (mount & target & uuid & t & greq & _ & _ & Hfw).
  apply proxy_forward_tagged in Hfw.
  destruct (at_users_root _ Hroot) as (Hh & Hi & _).
  assert (UserService.reads req = true) as Hreads
    by (unfold UserService.reads; by rewrite Hget).
  assert (requestId (px_req p) = Some uuid) as Hid by (by rewrite Hfw).
  assert (UserService.header "x-gateway-request-id" req = Some uuid ∧
          UserService.header "x-forwarded-by" req = Some "api-gateway")
    as [Hrid Hby].
  { unfold UserService.header. subst req.
    cbn [UserService.headers UserService.receive]. rewrite Hfw. simpl. split.
    - do 3 (rewrite prop_get_set_ne by done). apply prop_get_set_eq.
    - apply prop_get_set_eq. }
  unfold UserService.dispatch. rewrite Hh, Hi, Hroot, Hreads. cbn [andb].
  unfold UserService.getUsers. by rewrite Hrid, Hby, Hid.
Qed.

(** X23. Whatever state the user service is in, it answers a GET of
    [/health] with 200, so a gateway probe that it answers marks the
    probed service [healthy] with the elapsed time. *)
Theorem probe_answered_by_user_service (w : World) (i : nat) (p : Probe)
    (st : UserService.State) (now : Z) (req : UserService.Req) :
  reachable w → probes w !! i = Some p →
  UserService.reads req = true →
  route_matches "/health" (UserService.path req) = true →
  ∃ res w',
    UserService.dispatch st now req = (st, UserService.Replied res) ∧
    step w (ProbeDone i (AxiosResponse (UserService.status res)))
    = Some (w', None) ∧
    status (deref (store (gw w')) (probe_service p)) = "healthy" ∧
    responseTime (deref (store (gw w')) (probe_service p))
    = Some (pretty (clock w - probe_start p) +:+ "ms").
Proof.
  intros Hok%reachable_ok Hp Hreads Hroute.
  destruct (ok_probes _ Hok p) as [key Hget];
    [by eapply list_elem_of_lookup_2|].
  pose proof (ok_refs _ Hok _ _ Hget) as Hlt.
  do 2 eexists. split.
  { unfold UserService.dispatch. by rewrite Hroute, Hreads. }
  split; [by apply step_ProbeDone|].
  cbn [gw store with_store UserService.status UserService.health].
  rewrite checkServiceHealth_resume_assign.
  change (200 <? 500) with true. cbv iota.
  by rewrite deref_assign_eq.
Qed.

(** * Witnesses *)

Lemma health_report_aggregates_witness :
  NoDup (JsMap.keys (services booted)) ∧
  ∃ overall report total healthy,
    payload (healthRoute booted 0)
      = HealthReport overall "1.0.0" 0 report total healthy ∧
    (statusCode (healthRoute booted 0) = 200 ∧ overall = "healthy" ↔
     ∀ key service, JsMap.get key (services booted) = Some service →
                    status (deref (store booted) service) = "healthy") ∧
    (statusCode (healthRoute booted 0) = 503 ∧ overall = "degraded" ↔
     ¬ ∀ key service, JsMap.get key (services booted) = Some service →
                      status (deref (store booted) service) = "healthy") ∧
    Object_keys report = JsMap.keys (services booted) ∧
    ∀ key service, JsMap.get key (services booted) = Some service →
      prop_get key report
      = Some {| he_name := name (deref (store booted) service);
                he_status := status (deref (store booted) service);
                he_lastHealthCheck := lastHealthCheck (deref (store booted) service);
                he_responseTime := responseTime (deref (store booted) service) |}.
Proof.
  split; [compute_done|]. apply (health_report_aggregates booted 0). compute_done.
Defined.

Lemma proxied_outcomes_witness :
  reachable (world_after forwarding) ∧
  (∃ p, proxying (world_after forwarding) !! 0%nat = Some p ∧
        px_serviceKey p = "user-service" ∧
        ∃ w' res message,
          step (world_after forwarding) (Settle 0 (Failed "ECONNREFUSED"))
          = Some (w', Some res) ∧
          status <$> descriptor "user-service" (gw w') = Some "unhealthy" ∧
          statusCode res = 503 ∧
          payload res
          = ServiceUnavailable "Service unavailable" message "user-service"
              (Some "req-1") 0 30
              ["Try again in a few moments"; "Check service status at /services";
               "Contact support if problem persists"]).
Proof.
  assert (reachable (world_after forwarding)) as Hreach.
  { exists 0, forwarding, started. split; reflexivity. }
  split; [exact Hreach|]. eexists. split; [reflexivity|]. split; [reflexivity|].
  eapply (proxied_outcomes (world_after forwarding) 0 _ Hreach eq_refl).
Defined.

Lemma timeout_observations_witness :
  reachable (world_after forwarding) ∧
  (∃ p, probes (world_after forwarding) !! 1%nat = Some p ∧
   ∃ w',
     step (world_after forwarding) (ProbeDone 1 (AxiosFailure "timeout"))
     = Some (w', None) ∧
     (∃ key, JsMap.get key (services (gw w')) = Some (probe_service p)) ∧
     status (deref (store (gw w')) (probe_service p)) = "unhealthy" ∧
     responseTime (deref (store (gw w')) (probe_service p)) = Some "timeout").
Proof.
  assert (reachable (world_after forwarding)) as Hreach.
  { exists 0, forwarding, started. split; reflexivity. }
  split; [exact Hreach|]. eexists. split; [reflexivity|].
  eapply (proj1 (timeout_observations (world_after forwarding) Hreach)).
  reflexivity.
Defined.

Lemma probe_outcomes_witness :
  reachable started ∧
  (∃ p, probes started !! 2%nat = Some p ∧
   ∃ w',
     step started (ProbeDone 2 (AxiosResponse 404)) = Some (w', None) ∧
     status (deref (store (gw w')) (probe_service p)) = "unhealthy" ∧
     responseTime (deref (store (gw w')) (probe_service p))
     = Some (pretty (clock started - probe_start p) +:+ "ms")).
Proof.
  assert (reachable started) as Hreach.
  { exists 0, [], started. split; reflexivity. }
  split; [exact Hreach|]. eexists. split; [reflexivity|].
  destruct (probe_outcomes started 2 _ 404 Hreach eq_refl)
    as (w' & Hstep & _ & _ & Hother & _).
  exists w'. split; [exact Hstep|]. apply Hother; lia.
Defined.

Lemma unrouted_request_404_witness :
  reachable started ∧
  routed (app (gw started)) (GET "/api/nonexistent/x") = false ∧
  ∃ res message rid,
    step started (Arrive "req-1" (GET "/api/nonexistent/x"))
    = Some (started, Some res) ∧
    statusCode res = 404 ∧
    payload res
    = RouteNotFound "Route not found" message (JsMap.keys (services (gw started)))
        ["Check if the target service is running";
         "Verify the route path is correct";
         "Check service registration in gateway"]
        rid (clock started) ∧
    ∀ key service,
      JsMap.get key (services (gw started)) = Some service →
      key ∈ JsMap.keys (services (gw started)).
Proof.
  assert (reachable started) as Hreach.
  { exists 0, [], started. split; reflexivity. }
  split; [exact Hreach|]. split; [reflexivity|].
  apply (unrouted_request_404 started "req-1" (GET "/api/nonexistent/x") Hreach).
  reflexivity.
Defined.

Lemma probe_schedule_witness :
  construct 0 = Some started ∧
  exec first_tick started = Some (world_after first_tick) ∧
  (∀ p, p ∈ probes (world_after first_tick) →
        clock (world_after first_tick) ≤ probe_start p + probeTimeout) ∧
  0 + probeTimeout < clock (world_after first_tick) ∧
  ∀ key d,
    descriptor key (gw (world_after first_tick)) = Some d → status d ≠ "unknown".
Proof.
  assert (∀ p, p ∈ probes (world_after first_tick) →
               clock (world_after first_tick) ≤ probe_start p + probeTimeout)
    as Htimely.
  { intros p Hin. vm_compute in Hin.
    repeat (apply elem_of_cons in Hin as [->|Hin]; [by vm_compute|]).
    by apply elem_of_nil in Hin. }
  split; [reflexivity|]. split; [reflexivity|]. split; [exact Htimely|].
  split; [by vm_compute|].
  apply (proj2 (proj2 (proj2 (proj2
           (probe_schedule 0 first_tick started (world_after first_tick)
              eq_refl eq_refl))))).
  - exact Htimely.
  - by vm_compute.
Defined.

Lemma status_three_valued_witness :
  construct 0 = Some started ∧
  exec first_tick started = Some (world_after first_tick) ∧
  (∀ key d, descriptor key (gw started) = Some d → status d = "unknown") ∧
  (∀ key d, descriptor key (gw (world_after first_tick)) = Some d →
            status_ok (status d)).
Proof.
  split; [reflexivity|]. split; [reflexivity|].
  destruct (status_three_valued 0 first_tick started (world_after first_tick)
              eq_refl eq_refl) as (Hinit & Hinv & _).
  split; [exact Hinit | exact Hinv].
Defined.

Lemma responseTime_written_by_prober_only_witness :
  reachable (world_after forwarding) ∧
  (∃ w' res,
     step (world_after forwarding) (Settle 0 (Failed "ECONNRESET"))
     = Some (w', Some res) ∧
     ∀ r, responseTime (deref (store (gw w')) r)
          = responseTime (deref (store (gw (world_after forwarding))) r)).
Proof.
  assert (reachable (world_after forwarding)) as Hreach.
  { exists 0, forwarding, started. split; reflexivity. }
  split; [exact Hreach|]. do 2 eexists. split; [reflexivity|].
  eapply (proj1 (responseTime_written_by_prober_only
                   (world_after forwarding) (Settle 0 (Failed "ECONNRESET"))
                   _ _ Hreach eq_refl)).
  done.
Defined.

(** ** Witnesses of the further properties *)

Lemma reachable_after (evs : list Event) (w : World) :
  exec evs started = Some w → reachable w.
Proof. intros He. by exists 0, evs, started. Qed.

Lemma registration_is_permanent_witness :
  construct 0 = Some started ∧
  exec first_tick started = Some (world_after first_tick) ∧
  services (gw (world_after first_tick)) = services (gw started) ∧
  JsMap.keys (services (gw (world_after first_tick)))
  = ["user-service"; "product-service"; "order-service"].
Proof.
  assert (exec first_tick started = Some (world_after first_tick)) as He
    by (by vm_compute).
  split; [reflexivity|]. split; [exact He|].
  destruct (registration_is_permanent 0 first_tick started
              (world_after first_tick) eq_refl He) as (H1 & H2 & _).
  split; [exact H1 | exact H2].
Defined.

Lemma observations_are_isolated_witness :
  reachable (world_after forwarding) ∧
  ∃ p w' out,
    proxying (world_after forwarding) !! 0%nat = Some p ∧
    px_serviceKey p = "user-service" ∧
    step (world_after forwarding) (Settle 0 (Failed "ECONNREFUSED"))
    = Some (w', out) ∧
    descriptor "order-service" (gw w')
    = descriptor "order-service" (gw (world_after forwarding)).
Proof.
  assert (reachable (world_after forwarding)) as Hreach
    by (apply (reachable_after forwarding); by vm_compute).
  split; [exact Hreach|]. do 3 eexists.
  split; [vm_compute; reflexivity|]. split; [reflexivity|].
  split; [vm_compute; reflexivity|].
  eapply (proj2 (observations_are_isolated (world_after forwarding)
                   "user-service" Hreach) 0%nat _ (Failed "ECONNREFUSED")).
  - vm_compute; reflexivity.
  - reflexivity.
  - vm_compute; reflexivity.
  - done.
Defined.

Lemma services_summary_adds_up_witness :
  reachable started ∧
  ∃ data total healthy unhealthy unknown,
    payload (servicesRoute (gw started) 0)
    = ServicesReport true data total healthy unhealthy unknown 0 ∧
    total = length (Object_keys data) ∧
    total = (healthy + unhealthy + unknown)%nat.
Proof.
  assert (reachable started) as Hreach by (by apply (reachable_after [])).
  split; [exact Hreach|]. exact (services_summary_adds_up started 0 Hreach).
Defined.

Lemma never_checked_is_unknown_witness :
  construct 0 = Some started ∧
  exec first_tick started = Some (world_after first_tick) ∧
  ∀ key d,
    descriptor key (gw (world_after first_tick)) = Some d →
    (status d = "unknown" ↔ lastHealthCheck d = None) ∧
    (lastHealthCheck d = None → responseTime d = None) ∧
    (∀ t, lastHealthCheck d = Some t → 0 ≤ t ≤ clock (world_after first_tick)).
Proof.
  assert (exec first_tick started = Some (world_after first_tick)) as He
    by (by vm_compute).
  split; [reflexivity|]. split; [exact He|].
  exact (never_checked_is_unknown 0 first_tick started
           (world_after first_tick) eq_refl He).
Defined.

Lemma responseTime_is_well_formed_witness :
  reachable (world_after first_tick) ∧
  ∃ d,
    descriptor "user-service" (gw (world_after first_tick)) = Some d ∧
    (responseTime d = None ∨ responseTime d = Some "timeout" ∨
     ∃ n, 0 ≤ n ∧ responseTime d = Some (pretty n +:+ "ms")).
Proof.
  assert (reachable (world_after first_tick)) as Hreach
    by (apply (reachable_after first_tick); by vm_compute).
  split; [exact Hreach|]. eexists. split; [vm_compute; reflexivity|].
  eapply (responseTime_is_well_formed (world_after first_tick) "user-service");
    [exact Hreach|vm_compute; reflexivity].
Defined.

Lemma probes_ask_registered_health_address_witness :
  reachable started ∧
  ∃ p,
    p ∈ probes started ∧ probe_start p ≤ clock started ∧
    ∃ key d,
      JsMap.get key (services (gw started)) = Some (probe_service p) ∧
      descriptor key (gw started) = Some d ∧ probe_url p = health d.
Proof.
  assert (reachable started) as Hreach by (by apply (reachable_after [])).
  split; [exact Hreach|]. eexists. split; [apply list_elem_of_here|].
  apply (probes_ask_registered_health_address started _ Hreach).
  apply list_elem_of_here.
Defined.

Lemma last_probe_wins_witness :
  probe_service {| probe_service := 0; probe_url := "http://localhost:3002/health";
                   probe_start := 0 |}
  = probe_service {| probe_service := 0;
                     probe_url := "http://localhost:3002/health";
                     probe_start := 30000 |} ∧
  checkServiceHealth_resume
    {| probe_service := 0; probe_url := "http://localhost:3002/health";
       probe_start := 30000 |} (AxiosResponse 200) 30012
    (checkServiceHealth_resume
       {| probe_service := 0; probe_url := "http://localhost:3002/health";
          probe_start := 0 |} (AxiosFailure "timeout") 30040 (store booted))
  = checkServiceHealth_resume
      {| probe_service := 0; probe_url := "http://localhost:3002/health";
         probe_start := 30000 |} (AxiosResponse 200) 30012 (store booted).
Proof.
  split; [reflexivity|].
  apply (proj1 (last_probe_wins _ _ _ _ _ _
                  {| px_serviceKey := ""; px_service := 0; px_req := GET "/";
                     px_proxyReq :=
                       {| preq_target := ""; preq_method := ""; preq_path := "";
                          preq_headers := []; preq_body := "" |} |}
                  (Failed "") _)).
  reflexivity.
Defined.

Lemma ticks_are_spaced_witness :
  ∃ w1 w2 w3,
    step (world_after [Elapse 30000]) Tick = Some (w1, None) ∧
    exec [ProbeDone 0 (AxiosResponse 200); Elapse 30005] w1 = Some w2 ∧
    step w2 Tick = Some (w3, None) ∧
    clock (world_after [Elapse 30000]) + 30000 ≤ clock w2.
Proof.
  do 3 eexists.
  split; [vm_compute; reflexivity|]. split; [vm_compute; reflexivity|].
  split; [vm_compute; reflexivity|].
  eapply (ticks_are_spaced (world_after [Elapse 30000]) _ _ _
            [ProbeDone 0 (AxiosResponse 200); Elapse 30005]);
    vm_compute; reflexivity.
Defined.

Lemma request_id_correlates_witness :
  reachable (world_after forwarding) ∧
  ∃ p,
    proxying (world_after forwarding) !! 0%nat = Some p ∧
    ∃ id,
      requestId (px_req p) = Some id ∧
      prop_get "x-gateway-request-id" (preq_headers (px_proxyReq p)) = Some id ∧
      (∀ proxyRes,
         ∃ w' res,
           step (world_after forwarding) (Settle 0 (Answered proxyRes))
           = Some (w', Some res) ∧
           prop_get "X-Gateway-Request-ID" (headers res) = Some (Some id)) ∧
      (∀ err,
         ∃ w' error message service timestamp retryAfter suggestions,
           step (world_after forwarding) (Settle 0 (Failed err))
           = Some (w', Some {| statusCode := 503; headers := [];
                               payload :=
                                 ServiceUnavailable error message service
                                   (Some id) timestamp retryAfter
                                   suggestions |})).
Proof.
  assert (reachable (world_after forwarding)) as Hreach
    by (apply (reachable_after forwarding); by vm_compute).
  split; [exact Hreach|]. eexists. split; [vm_compute; reflexivity|].
  apply (request_id_correlates (world_after forwarding) 0 _ Hreach).
  vm_compute; reflexivity.
Defined.


Lemma mounts_are_disjoint_witness :
  ("/api/orders", "order-service", 2%nat, "http://localhost:3004") ∈ mounts ∧
  use_matches "/api/orders" "/api/orders/17" = true ∧
  route_matches "/health" "/api/orders/17" = false ∧
  route_matches "/" "/api/orders/17" = false ∧
  route_matches "/services" "/api/orders/17" = false.
Proof.
  assert (("/api/orders", "order-service", 2%nat, "http://localhost:3004")
          ∈ mounts) as Hin.
  { do 2 apply list_elem_of_further. apply list_elem_of_here. }
  split; [exact Hin|]. split; [reflexivity|].
  exact (proj2 (mounts_are_disjoint "/api/orders/17" _ _ Hin Hin
                  eq_refl eq_refl)).
Defined.

Lemma fallback_request_id_witness :
  reachable started ∧
  routed (app (gw started)) (GET "/api/nonexistent/x") = false ∧
  requestId (GET "/api/nonexistent/x") = None ∧
  ∃ error message available suggestions,
    step started (Arrive "req-1" (GET "/api/nonexistent/x"))
    = Some (started,
            Some {| statusCode := 404; headers := [];
                    payload :=
                      RouteNotFound error message available suggestions
                        (if starts_with "/api/"
                              (lower (pathname
                                        (originalUrl (GET "/api/nonexistent/x"))))
                         then Some "req-1" else None)
                        (clock started) |}).
Proof.
  assert (reachable started) as Hreach by (by apply (reachable_after [])).
  split; [exact Hreach|]. split; [reflexivity|]. split; [reflexivity|].
  exact (fallback_request_id started "req-1" (GET "/api/nonexistent/x") Hreach
           eq_refl eq_refl).
Defined.

Lemma other_methods_fall_through_witness :
  reachable started ∧
  method post_health ≠ "GET" ∧ method post_health ≠ "HEAD" ∧
  method post_health ≠ "OPTIONS" ∧
  route_matches "/health" (pathname (originalUrl post_health)) = true ∧
  step started (Arrive "req-1" post_health)
  = Some (started, Some (fallbackRoute (gw started) post_health (clock started))).
Proof.
  assert (reachable started) as Hreach by (by apply (reachable_after [])).
  assert (method post_health ≠ "GET") as Hg by discriminate.
  assert (method post_health ≠ "HEAD") as Hh by discriminate.
  assert (method post_health ≠ "OPTIONS") as Ho by discriminate.
  split; [exact Hreach|]. split; [exact Hg|]. split; [exact Hh|].
  split; [exact Ho|]. split; [reflexivity|].
  apply (other_methods_fall_through started "req-1" post_health Hreach Hg Hh
           Ho).
  left. reflexivity.
Defined.

Lemma info_lists_the_registry_witness :
  reachable started ∧ method (GET "/") = "GET" ∧
  route_matches "/" (pathname (originalUrl (GET "/"))) = true ∧
  ∃ message version features listed endpoints,
    step started (Arrive "req-1" (GET "/"))
    = Some (started,
            Some {| statusCode := 200; headers := [];
                    payload := GatewayInfo message version features listed
                                 endpoints (clock started) |}) ∧
    ie_id <$> listed = JsMap.keys (services (gw started)) ∧
    ∀ e, e ∈ listed →
         ∃ d, descriptor (ie_id e) (gw started) = Some d ∧
              ie_name e = name d ∧ ie_routes e = routes d ∧
              ie_status e = status d.
Proof.
  assert (reachable started) as Hreach by (by apply (reachable_after [])).
  split; [exact Hreach|]. split; [reflexivity|]. split; [reflexivity|].
  exact (info_lists_the_registry started "req-1" (GET "/") Hreach
           eq_refl eq_refl).
Defined.

Lemma create_then_lookup_witness :
  UserService.method create_ann = "POST" ∧
  route_matches "/api/users" (UserService.path create_ann) = true ∧
  ∃ u st',
    UserService.dispatch (UserService.serve [] (UserService.construct None))
      5 create_ann
    = (st', UserService.Replied
              {| UserService.status := 201;
                 UserService.payload :=
                   UserService.CreatedBody "User created successfully" u
                     (UserService.serviceTag
                        (UserService.serve [] (UserService.construct None)) 5)
                     5 |}) ∧
    UserService.id u = 4 ∧
    UserService.findUser st' " 4abc" = Some u.
Proof.
  split; [reflexivity|]. split; [reflexivity|].
  destruct (create_then_lookup None [] create_ann 5 eq_refl eq_refl)
    as (u & st' & Hd & _ & Hid & _ & _ & Hfind & _).
  exists u, st'. split; [exact Hd|]. split; [exact Hid|].
  apply Hfind. rewrite Hid. reflexivity.
Defined.

Lemma simulate_error_is_shadowed_witness :
  route_matches "/api/users/simulate-error"
    (UserService.path simulate_server_error) = true ∧
  UserService.reads simulate_server_error = true ∧
  UserService.dispatch (UserService.construct None) 5 simulate_server_error
  = (UserService.construct None,
     UserService.Replied
       {| UserService.status := 404;
          UserService.payload :=
            UserService.ErrorBody "User not found"
              (UserService.serviceTag (UserService.construct None) 5)
              (Some 5) |}).
Proof.
  split; [reflexivity|]. split; [reflexivity|].
  exact (proj1 (simulate_error_is_shadowed (UserService.construct None) 5
                  simulate_server_error) eq_refl eq_refl).
Defined.

Lemma update_and_delete_are_not_served_witness :
  UserService.method put_user ≠ "GET" ∧ UserService.method put_user ≠ "HEAD" ∧
  UserService.method put_user ≠ "POST" ∧
  UserService.method put_user ≠ "OPTIONS" ∧
  (UserService.dispatch (UserService.construct None) 5 put_user
   = (UserService.construct None, UserService.NoRoute) ∨
   UserService.dispatch (UserService.construct None) 5 put_user
   = (UserService.construct None, UserService.Undecoded)).
Proof.
  assert (UserService.method put_user ≠ "GET") as Hg by discriminate.
  assert (UserService.method put_user ≠ "HEAD") as Hh by discriminate.
  assert (UserService.method put_user ≠ "POST") as Hp by discriminate.
  assert (UserService.method put_user ≠ "OPTIONS") as Ho by discriminate.
  split; [exact Hg|]. split; [exact Hh|]. split; [exact Hp|].
  split; [exact Ho|].
  exact (proj1 (update_and_delete_are_not_served (UserService.construct None)
                  5 put_user Hg Hh Hp Ho)).
Defined.

Lemma users_only_grow_witness :
  UserService.method list_users ≠ "POST" ∧
  (UserService.dispatch (UserService.construct None) 5 list_users).1
  = UserService.construct None.
Proof.
  assert (UserService.method list_users ≠ "POST") as Hp by discriminate.
  split; [exact Hp|].
  exact (proj2 (proj2 (users_only_grow [] (UserService.construct None)))
           5 list_users Hp).
Defined.

Lemma gateway_headers_are_echoed_witness :
  reachable (world_after forwarding) ∧
  ∃ p,
    p ∈ proxying (world_after forwarding) ∧
    UserService.method (UserService.receive (px_proxyReq p) [] []) = "GET" ∧
    route_matches "/api/users"
      (UserService.path (UserService.receive (px_proxyReq p) [] [])) = true ∧
    UserService.dispatch (UserService.construct None) 9
      (UserService.receive (px_proxyReq p) [] [])
    = (UserService.construct None,
       UserService.Replied
         {| UserService.status := 200;
            UserService.payload :=
              UserService.UsersBody
                (UserService.users (UserService.construct None))
                (UserService.serviceTag (UserService.construct None) 9)
                (requestId (px_req p)) (Some "api-gateway") 9 |}).
Proof.
  assert (reachable (world_after forwarding)) as Hreach
    by (apply (reachable_after forwarding); by vm_compute).
  split; [exact Hreach|]. eexists.
  split; [vm_compute; apply list_elem_of_here|].
  split; [reflexivity|]. split; [reflexivity|].
  apply (gateway_headers_are_echoed (world_after forwarding) _
           (UserService.construct None) 9 [] [] Hreach).
  - vm_compute. apply list_elem_of_here.
  - reflexivity.
  - reflexivity.
Defined.

Lemma probe_answered_by_user_service_witness :
  reachable started ∧
  UserService.reads get_health = true ∧
  route_matches "/health" (UserService.path get_health) = true ∧
  ∃ p res w',
    probes started !! 0%nat = Some p ∧
    UserService.dispatch (UserService.construct None) 12 get_health
    = (UserService.construct None, UserService.Replied res) ∧
    step started (ProbeDone 0 (AxiosResponse (UserService.status res)))
    = Some (w', None) ∧
    status (deref (store (gw w')) (probe_service p)) = "healthy".
Proof.
  assert (reachable started) as Hreach by (by apply (reachable_after [])).
  split; [exact Hreach|]. split; [reflexivity|]. split; [reflexivity|].
  destruct (probe_answered_by_user_service started 0 _
              (UserService.construct None) 12 get_health Hreach eq_refl
              eq_refl eq_refl) as (res & w' & Hd & Hs & Hst & _).
  eexists _, res, w'. split; [reflexivity|]. split; [exact Hd|].
  split; [exact Hs|exact Hst].
Defined.
